(** * html-helper: the HTML ⇄ tree codec and its tree operations

    A shallow embedding of [src/index.mjs].  JavaScript strings are modelled
    as [string] (sequences of code units below 256); a canonical tree node is
    either a bare string or an element object; an attribute mapping is the
    list of its entries in iteration order.  In-place edits of a tree are
    modelled by functions that return the edited tree, a thrown [TypeError]
    by [None].  Trees are tree-shaped: no object is reachable twice. *)

From Stdlib Require Import Ascii String.
From stdpp Require Import base option list strings.


(** ** Strings *)

Module Js.

(** The double quote, built from its code. *)
Definition dquote : string := String (ascii_of_nat 34) EmptyString.

(** ECMAScript [WhiteSpace] and [LineTerminator] code units below 256:
    TAB, LF, VT, FF, CR, SP and NBSP. *)
Definition is_whitespace (c : ascii) : bool :=
  let n := nat_of_ascii c in
  (Nat.leb 9 n && Nat.leb n 13) || Nat.eqb n 32 || Nat.eqb n 160.

Fixpoint trimStart (s : string) : string :=
  match s with
  | EmptyString => EmptyString
  | String c s' => if is_whitespace c then trimStart s' else s
  end.

Fixpoint trimEnd (s : string) : string :=
  match s with
  | EmptyString => EmptyString
  | String c s' =>
      match trimEnd s' with
      | EmptyString => if is_whitespace c then EmptyString else String c EmptyString
      | r => String c r
      end
  end.

(** [String.prototype.trim] *)
Definition trim (s : string) : string := trimEnd (trimStart s).

(** Truthiness of a string value: the empty string is falsy. *)
Definition truthy (s : string) : bool :=
  match s with EmptyString => false | _ => true end.

(** Every code unit of [s] is white space. *)
Fixpoint blank (s : string) : bool :=
  match s with
  | EmptyString => true
  | String c s' => is_whitespace c && blank s'
  end.

Definition lower_char (c : ascii) : ascii :=
  let n := nat_of_ascii c in
  if (Nat.leb 65 n && Nat.leb n 90)
     || (Nat.leb 192 n && Nat.leb n 222 && negb (Nat.eqb n 215))
  then ascii_of_nat (n + 32) else c.

(** [String.prototype.toLowerCase] on code units below 256. *)
Fixpoint toLowerCase (s : string) : string :=
  match s with
  | EmptyString => EmptyString
  | String c s' => String (lower_char c) (toLowerCase s')
  end.

Fixpoint startsWith (p s : string) : bool :=
  match p, s with
  | EmptyString, _ => true
  | String a p', String b s' => Ascii.eqb a b && startsWith p' s'
  | String _ _, EmptyString => false
  end.

(** [hay.includes(needle)] *)
Fixpoint includes (needle hay : string) : bool :=
  startsWith needle hay ||
  match hay with
  | EmptyString => false
  | String _ hay' => includes needle hay'
  end.

(** [parts.join(sep)] *)
Fixpoint join (sep : string) (parts : list string) : string :=
  match parts with
  | [] => EmptyString
  | [p] => p
  | p :: ps => p +:+ sep +:+ join sep ps
  end.

End Js.

(** ** Data model *)

(** An [attribs] object: its entries in iteration order (keys are unique).
    An object iterates the keys that are array indices first, in ascending
    order, and then its other keys in the order they were created. *)
Definition Attribs : Type := list (string * string).

(** [attribs[key]] *)
Fixpoint attr_get (key : string) (a : Attribs) : option string :=
  match a with
  | [] => None
  | (k, v) :: a' => if String.eqb k key then Some v else attr_get key a'
  end.

(** The value of a decimal digit. *)
Definition digit_value (c : ascii) : option N :=
  let n := N_of_ascii c in
  if (48 <=? n)%N && (n <=? 57)%N then Some (n - 48)%N else None.

(** The number that the decimal digits [s] stand for, after the digits
    that gave [acc]. *)
Fixpoint decimal_value (acc : N) (s : string) : option N :=
  match s with
  | EmptyString => Some acc
  | String c s' =>
      match digit_value c with
      | Some d => decimal_value (10 * acc + d)%N s'
      | None => None
      end
  end.

(** The array index a property key stands for, if it is one: the key is
    the decimal numeral, without leading zeros, of an integer below
    2^32 - 1. *)
Definition array_index (key : string) : option N :=
  match key with
  | EmptyString => None
  | String c rest =>
      if Ascii.eqb c "0" && negb (String.eqb rest EmptyString) then None
      else
        match decimal_value 0 key with
        | Some n => if (n <? 4294967295)%N then Some n else None
        | None => None
        end
  end.

(** The value of an existing key changes; the key keeps its place. *)
Fixpoint attr_replace (key value : string) (a : Attribs) : Attribs :=
  match a with
  | [] => []
  | (k, v) :: a' =>
      if String.eqb k key then (k, value) :: a' else (k, v) :: attr_replace key value a'
  end.

(** A new key that is the array index [n] goes before the first key that
    is a greater array index or no array index. *)
Fixpoint attr_add_index (n : N) (key value : string) (a : Attribs) : Attribs :=
  match a with
  | [] => [(key, value)]
  | (k, v) :: a' =>
      match array_index k with
      | Some m =>
          if (m <? n)%N then (k, v) :: attr_add_index n key value a'
          else (key, value) :: a
      | None => (key, value) :: a
      end
  end.

(** [attribs[key] = value]: an existing key keeps its place; a new key
    goes among the array indices if it is one and last otherwise. *)
Definition attr_set (key value : string) (a : Attribs) : Attribs :=
  match attr_get key a with
  | Some _ => attr_replace key value a
  | None =>
      match array_index key with
      | Some n => attr_add_index n key value a
      | None => a ++ [(key, value)]
      end
  end.

(** [{ ...a, ...b }] *)
Definition attr_spread (a b : Attribs) : Attribs :=
  fold_left (fun acc kv => attr_set (fst kv) (snd kv) acc) b a.

Local Unset Elimination Schemes.

(** A canonical tree node: a bare string, or an object with a [name] and
    possibly absent [attribs] and [children]. *)
Inductive Node : Type :=
| Text (s : string)
| Elem (name : string) (attribs : option Attribs) (children : option (list Node)).

(** A raw parse node of the adapter: a text node with its [data], an
    element-like node ([type] tag, script or style) with [name], [attribs]
    and [children], or a node of another type (comment, directive, cdata).
    Of the other types only a directive has a name, which begins with an
    exclamation or a question mark and so is never html; it is left out. *)
Inductive ElementType : Type := Tag | Script | Style.
Inductive OtherType : Type := Comment | Directive | CData | Doctype.

Inductive RawNode : Type :=
| RawText (data : string)
| RawElement (type : ElementType) (name : string) (attribs : option Attribs)
             (children : option (list RawNode))
| RawOther (type : OtherType) (children : list RawNode).

Local Set Elimination Schemes.

(** The document the adapter returns: [dom.children]. *)
Record Document : Type := { dom_children : list RawNode }.

(** What a tree function accepts: [null], an array of nodes, or one node. *)
Inductive Input : Type :=
| INull
| IArray (nodes : list Node)
| INode (node : Node).

(** The view of a node handed to predicates. *)
Record NodeProps : Type := mkProps {
  name : option string;
  attribs : option Attribs;
  content : option string;
}.

(** A record of [extractAllResources]. *)
Record Resource : Type := mkResource {
  res_name : string;
  res_attribute : string;
  res_value : string;
}.

(** Property reads: a string has none of the three properties. *)
Definition node_name (n : Node) : option string :=
  match n with Text _ => None | Elem nm _ _ => Some nm end.

Definition node_attribs (n : Node) : option Attribs :=
  match n with Text _ => None | Elem _ a _ => a end.

Definition node_children (n : Node) : option (list Node) :=
  match n with Text _ => None | Elem _ _ cs => cs end.

(** [!node]: of the nodes only the empty string is falsy. *)
Definition falsy (n : Node) : bool :=
  match n with Text s => negb (Js.truthy s) | Elem _ _ _ => false end.

(** [n.name === key] *)
Definition named (key : string) (n : Node) : bool :=
  match node_name n with Some nm => String.eqb nm key | None => false end.

Definition raw_type (n : RawNode) : string :=
  match n with
  | RawText _ => "text"
  | RawElement Tag _ _ _ => "tag"
  | RawElement Script _ _ _ => "script"
  | RawElement Style _ _ _ => "style"
  | RawOther Comment _ => "comment"
  | RawOther Directive _ => "directive"
  | RawOther CData _ => "cdata"
  | RawOther Doctype _ => "doctype"
  end.

Definition raw_name (n : RawNode) : option string :=
  match n with RawElement _ nm _ _ => Some nm | _ => None end.

(** ** The codec *)

Definition RESOURCE_ATTRS : list string := ["src"; "href"; "data"; "action"].

Definition SELF_CLOSING_TAGS : list string :=
  ["meta"; "base"; "link"; "img"; "br"; "hr"; "input"; "area"; "source"].

(** [list.includes(x)] on strings *)
Definition includes_str (l : list string) (x : string) : bool :=
  existsb (String.eqb x) l.

Definition getNodeProps (node : Node) : NodeProps :=
  match node with
  | Text s => mkProps None None (Some s)
  | Elem nm a cs =>
      mkProps (Some nm) a
        match cs with
        | Some [Text s] => Some s
        | _ => None
        end
  end.

(** [.filter(Boolean)]: drops [null] and the empty string. *)
Definition filterBoolean (l : list (option Node)) : list Node :=
  omap (fun o => match o with
                 | Some n => if falsy n then None else Some n
                 | None => None
                 end) l.

Fixpoint nodeToJson (node : RawNode) : option Node :=
  match node with
  | RawText data => if Js.truthy (Js.trim data) then Some (Text data) else None
  | RawOther _ _ => None
  | RawElement _ nm a cs =>
      Some (Elem nm (Some (default [] a))
                 (Some (filterBoolean
                          match cs with
                          | Some l => map nodeToJson l
                          | None => []
                          end)))
  end.

Definition attr_entry (kv : string * string) : string :=
  fst kv +:+ "=" +:+ Js.dquote +:+ snd kv +:+ Js.dquote.

Fixpoint jsonToHtml (node : Node) : string :=
  match node with
  | Text s => s
  | Elem nm a cs =>
      let attribs := default [] a in
      let children := default [] cs in
      let attrStr := Js.join " " (map attr_entry attribs) in
      let openTag :=
        if Js.truthy attrStr then "<" +:+ nm +:+ " " +:+ attrStr +:+ ">"
        else "<" +:+ nm +:+ ">" in
      if includes_str SELF_CLOSING_TAGS nm && Nat.eqb (length children) 0 then
        if Js.truthy attrStr then "<" +:+ nm +:+ " " +:+ attrStr +:+ " />"
        else "<" +:+ nm +:+ " />"
      else
        let childrenHtml :=
          Js.join "" match cs with
                     | Some l => map jsonToHtml l
                     | None => []
                     end in
        openTag +:+ childrenHtml +:+ "</" +:+ nm +:+ ">"
  end.

(** [array.findIndex(p)], with [None] for -1; [array.find(p)] is the element
    at that index. *)
Fixpoint findIndex {A} (p : A -> bool) (l : list A) : option nat :=
  match l with
  | [] => None
  | x :: l' => if p x then Some 0 else S <$> findIndex p l'
  end.

Section Adapter.
(** The external parse adapter. *)
Variable parseDocument : string -> Document.

Definition htmlToJson (html : string) : option Node :=
  let dom := parseDocument html in
  match List.find (fun n => match raw_name n with
                            | Some nm => String.eqb nm "html"
                            | None => false
                            end) (dom_children dom) with
  | None => None
  | Some htmlNode => nodeToJson htmlNode
  end.
End Adapter.

(** ** Traversal and search *)

Section Traverse.
Context {S : Type}.
(** The callback, as the change it makes to the state it closes over. *)
Variable callback : Node -> S -> S.

(** [traverse] on a node: a falsy node returns at once. *)
Fixpoint traverse_node (node : Node) (s : S) : S :=
  match node with
  | Text str => if Js.truthy str then callback node s else s
  | Elem _ _ cs =>
      let s1 := callback node s in
      match cs with
      | Some l => fold_left (fun acc child => traverse_node child acc) l s1
      | None => s1
      end
  end.

Definition traverse (node : Input) (s : S) : S :=
  match node with
  | INull => s
  | IArray l => fold_left (fun acc n => traverse_node n acc) l s
  | INode n => traverse_node n s
  end.
End Traverse.

Section Predicate.
Variable predicate : NodeProps -> bool.

Fixpoint hasNode_node (node : Node) : bool :=
  match node with
  | Text str => Js.truthy str && predicate (getNodeProps node)
  | Elem _ _ cs =>
      predicate (getNodeProps node)
      || match cs with
         | Some l => existsb hasNode_node l
         | None => false
         end
  end.

Definition hasNode (node : Input) : bool :=
  match node with
  | INull => false
  | IArray l => existsb hasNode_node l
  | INode n => hasNode_node n
  end.

(** [removeNodes] on a node.  The inner loop is the [filter] on the
    children followed by the [forEach] on the children kept. *)
Fixpoint removeNodes_node (node : Node) : Node :=
  match node with
  | Text _ => node
  | Elem nm a cs =>
      match cs with
      | None => node
      | Some l =>
          Elem nm a
            (Some ((fix keep (l : list Node) : list Node :=
                      match l with
                      | [] => []
                      | child :: l' =>
                          let shouldRemove := predicate (getNodeProps child) in
                          if negb shouldRemove
                          then removeNodes_node child :: keep l'
                          else keep l'
                      end) l))
      end
  end.

Definition removeNodes (node : Input) : Input :=
  match node with
  | INull => INull
  | IArray l => IArray (map removeNodes_node l)
  | INode n => INode (removeNodes_node n)
  end.
End Predicate.

Section UpdateTitle.
Variable newTitle : string.

Fixpoint updateTitle_node (node : Node) : Node :=
  match node with
  | Text _ => node
  | Elem nm a cs =>
      if String.eqb nm "title" then Elem nm a (Some [Text newTitle])
      else match cs with
           | Some l => Elem nm a (Some (map updateTitle_node l))
           | None => node
           end
  end.

Definition updateTitle (node : Input) : Input :=
  match node with
  | INull => INull
  | IArray l => IArray (map updateTitle_node l)
  | INode n => INode (updateTitle_node n)
  end.
End UpdateTitle.

Definition extractAllResources (root : Input) : list Resource :=
  traverse
    (fun node resources =>
       match node with
       | Elem nm (Some a) _ =>
           fold_left
             (fun res attr =>
                match attr_get attr a with
                | Some value =>
                    if Js.truthy value then res ++ [mkResource nm attr value] else res
                | None => res
                end)
             RESOURCE_ATTRS resources
       | _ => resources
       end)
    root [].

(** [countMetaTags] of the test suite. *)
Definition countMetaTags (ast : Input) : nat :=
  traverse (fun node count => if named "meta" node then count + 1 else count) ast 0.

(** ** Mutations *)

(** Where the node returned by [ensureHeadNode] lives: it is the child of
    the root at an index, or a new object that no tree holds. *)
Inductive HeadRef : Type :=
| InTree (index : nat)
| Detached (headNode : Node).

Definition ensureHeadNode (root : Node) : Node * HeadRef :=
  match node_children root ≫= findIndex (named "head") with
  | Some i => (root, InTree i)
  | None =>
      let headNode := Elem "head" (Some []) (Some []) in
      match root with
      | Elem nm a (Some cs) =>
          let insertIndex := default 0 (findIndex (named "body") cs) in
          (Elem nm a (Some (take insertIndex cs ++ headNode :: drop insertIndex cs)),
           InTree insertIndex)
      | _ => (root, Detached headNode)
      end
  end.

(** [headNode.children.push(..)] and [.unshift(..)]: the edit [f] of the
    children array of the node [ensureHeadNode] returned; [None] when that
    node has no [children]. *)
Definition editHeadChildren (st : Node * HeadRef) (f : list Node -> list Node)
  : option Node :=
  match st with
  | (root, Detached headNode) =>
      match node_children headNode with
      | Some _ => Some root
      | None => None
      end
  | (Elem nm a (Some cs), InTree i) =>
      match cs !! i with
      | Some (Elem hn ha (Some hcs)) =>
          Some (Elem nm a (Some (<[i := Elem hn ha (Some (f hcs))]> cs)))
      | _ => None
      end
  | _ => None
  end.

Definition insertInlineScript (root : Node) (scriptText : string) : option Node :=
  let headNode := ensureHeadNode root in
  let scriptNode := Elem "script" (Some []) (Some [Text scriptText]) in
  editHeadChildren headNode (fun cs => cs ++ [scriptNode]).

Definition insertLink (root : Node) (href rel : string) (additionalAttribs : Attribs)
  : option Node :=
  let headNode := ensureHeadNode root in
  let linkNode :=
    Elem "link" (Some (attr_spread [("rel", rel); ("href", href)] additionalAttribs))
         (Some []) in
  editHeadChildren headNode (fun cs => cs ++ [linkNode]).

(** [d.name === key] *)
Definition name_is (key : string) (d : NodeProps) : bool :=
  match name d with Some nm => String.eqb nm key | None => false end.

Definition isTitle (d : NodeProps) : bool := name_is "title" d.

Definition setTitle (root : Node) (content : string) : option Node :=
  if hasNode isTitle (INode root) then Some (updateTitle_node content root)
  else
    let headNode := ensureHeadNode root in
    let titleNode := Elem "title" (Some []) (Some [Text content]) in
    editHeadChildren headNode (fun cs => titleNode :: cs).

(** [attribs?.[key]], then a test on the value; an absent value is falsy. *)
Definition attr_test (a : option Attribs) (key : string) (p : string -> bool) : bool :=
  match a ≫= attr_get key with
  | Some v => p v
  | None => false
  end.

Definition signalsCharset (node : NodeProps) : bool :=
  if negb (name_is "meta" node) then false
  else
    let attribs := attribs node in
    attr_test attribs "charset" Js.truthy
    || (attr_test attribs "http-equiv"
          (fun v => String.eqb (Js.toLowerCase v) "content-type")
        && attr_test attribs "content"
             (fun v => Js.includes "charset" (Js.toLowerCase v)))
    || attr_test attribs "name" (fun v => String.eqb (Js.toLowerCase v) "charset").

Definition setCharset (root : Node) (charset : string) : option Node :=
  let hasCharset := hasNode signalsCharset (INode root) in
  if hasCharset then Some root
  else
    let headNode := ensureHeadNode root in
    let charsetNode := Elem "meta" (Some [("charset", charset)]) (Some []) in
    editHeadChildren headNode (fun cs => charsetNode :: cs).

Definition isViewport (node : NodeProps) : bool :=
  name_is "meta" node
  && attr_test (attribs node) "name" (fun v => String.eqb v "viewport").

Definition setViewport (root : Node) (content : string) : option Node :=
  let hasViewport := hasNode isViewport (INode root) in
  if hasViewport then Some root
  else
    let headNode := ensureHeadNode root in
    let viewportNode :=
      Elem "meta" (Some [("name", "viewport"); ("content", content)]) (Some []) in
    editHeadChildren headNode (fun cs => cs ++ [viewportNode]).

(** The [options] object of [createHtmlDocument]; [None] is an absent key. *)
Record Options : Type := mkOptions {
  lang : option string;
  charset : option string;
  viewport : option string;
}.

Definition createHtmlDocument (title : string) (options : Options) : Node :=
  let charset := default "utf-8" (charset options) in
  let viewport := default "width=device-width, initial-scale=1.0" (viewport options) in
  Elem "html"
    (Some match lang options with
          | Some l => if Js.truthy l then [("lang", l)] else []
          | None => []
          end)
    (Some [ Elem "head" (Some [])
              (Some [ Elem "meta" (Some [("charset", charset)]) (Some []);
                      Elem "meta" (Some [("name", "viewport"); ("content", viewport)])
                           (Some []);
                      Elem "title" (Some []) (Some [Text title]) ]);
            Elem "body" (Some []) (Some []) ]).

(** ** Specifications

    What the operations are meant to do, written independently of the
    functions above. *)

(** The double quote character, U+0022. *)
Definition quote_char : ascii := Ascii false true false false false true false false.

Definition quote_mark : string := String quote_char EmptyString.

(** The names of the void elements. *)
Definition void_names : list string :=
  ["meta"; "base"; "link"; "img"; "br"; "hr"; "input"; "area"; "source"].

(** The text of an attribute mapping: each entry as the key, an equals
    sign and the value between double quotes, the entries in order and
    separated by single spaces. *)
Fixpoint pairs_text (a : Attribs) : string :=
  match a with
  | [] => EmptyString
  | (k, v) :: rest =>
      let pair := k +:+ "=" +:+ quote_mark +:+ v +:+ quote_mark in
      match rest with
      | [] => pair
      | _ :: _ => pair +:+ " " +:+ pairs_text rest
      end
  end.

(** The keys [ks] in the order in which an object made of rel, href and
    further properties iterates them: the array indices, then rel, then
    href, then the other keys. *)
Definition key_order (ks : list string) : Prop :=
  ∃ idx rest,
    ks = idx ++ "rel" :: "href" :: rest
    ∧ Forall (fun k => is_Some (array_index k)) idx
    ∧ Forall (fun k => array_index k = None) rest.

(** [s] contains at least one character that is not white space. *)
Definition has_non_whitespace (s : string) : Prop :=
  ∃ c, c ∈ list_ascii_of_string s ∧ Js.is_whitespace c = false.

(** The canonical image of a raw node: [Some] node, or [None] when the raw
    node yields no canonical node. *)
Inductive Canonical : RawNode -> option Node -> Prop :=
| canonical_text data :
    has_non_whitespace data -> Canonical (RawText data) (Some (Text data))
| canonical_blank data :
    ¬ has_non_whitespace data -> Canonical (RawText data) None
| canonical_element ty nm a cs kids :
    CanonicalChildren (default [] cs) kids ->
    Canonical (RawElement ty nm a cs) (Some (Elem nm (Some (default [] a)) (Some kids)))
| canonical_other ty cs :
    Canonical (RawOther ty cs) None
with CanonicalChildren : list RawNode -> list Node -> Prop :=
| canonical_nil : CanonicalChildren [] []
| canonical_keep r rs n ns :
    Canonical r (Some n) -> CanonicalChildren rs ns -> CanonicalChildren (r :: rs) (n :: ns)
| canonical_drop r rs ns :
    Canonical r None -> CanonicalChildren rs ns -> CanonicalChildren (r :: rs) ns.

(** [r] is not a node named html. *)
Definition not_html (r : RawNode) : Prop := raw_name r ≠ Some "html".

(** All the nodes of a tree in depth-first pre-order: a node, then the
    nodes of each of its children from left to right.  A string and an
    element without [children] have no children. *)
Fixpoint preorder_node (n : Node) : list Node :=
  n :: match n with
       | Elem _ _ (Some l) => List.flat_map preorder_node l
       | _ => []
       end.

Definition preorder (root : Input) : list Node :=
  match root with
  | INull => []
  | IArray l => List.flat_map preorder_node l
  | INode n => preorder_node n
  end.

(** The nodes on which [traverse] invokes its callback, in order. *)
Definition visits (root : Input) : list Node :=
  traverse (fun n acc => acc ++ [n]) root [].

(** The nodes of a tree that are not the empty string. *)
Definition nonempty_nodes (root : Input) : list Node :=
  List.filter (fun n => negb (falsy n)) (preorder root).

(** The records one node gives: one for each resource attribute, in the
    fixed order, that the node has with a non-empty value. *)
Definition resources_of (n : Node) : list Resource :=
  match n with
  | Elem nm (Some a) _ =>
      omap (fun key =>
              match attr_get key a with
              | Some v => if decide (v = EmptyString) then None
                          else Some (mkResource nm key v)
              | None => None
              end)
           ["src"; "href"; "data"; "action"]
  | _ => []
  end.

(** Pruning by a predicate: at every level the children whose view
    satisfies the predicate are removed with their subtrees, and the
    children kept are pruned in turn.  The root itself is not tested. *)
Inductive Pruned (predicate : NodeProps -> bool) : Node -> Node -> Prop :=
| pruned_text s : Pruned predicate (Text s) (Text s)
| pruned_leaf nm a : Pruned predicate (Elem nm a None) (Elem nm a None)
| pruned_elem nm a cs cs' :
    PrunedChildren predicate cs cs' ->
    Pruned predicate (Elem nm a (Some cs)) (Elem nm a (Some cs'))
with PrunedChildren (predicate : NodeProps -> bool) : list Node -> list Node -> Prop :=
| pruned_nil : PrunedChildren predicate [] []
| pruned_remove c cs cs' :
    predicate (getNodeProps c) = true ->
    PrunedChildren predicate cs cs' ->
    PrunedChildren predicate (c :: cs) cs'
| pruned_keep c c' cs cs' :
    predicate (getNodeProps c) = false ->
    Pruned predicate c c' ->
    PrunedChildren predicate cs cs' ->
    PrunedChildren predicate (c :: cs) (c' :: cs').

(** [n => n.attribs?.class === value] *)
Definition hasClass (value : string) (d : NodeProps) : bool :=
  attr_test (attribs d) "class" (fun v => String.eqb v value).

(** [i] is the index of the first of the children [cs] named [key]. *)
Definition first_named (key : string) (cs : list Node) (i : nat) : Prop :=
  (∃ c, cs !! i = Some c ∧ node_name c = Some key)
  ∧ ∀ j c, j < i -> cs !! j = Some c -> node_name c ≠ Some key.

(** No child of [cs] is named [key]. *)
Definition none_named (key : string) (cs : list Node) : Prop :=
  Forall (λ c, node_name c ≠ Some key) cs.

(** The edit [f] of the children of the head of a root: of the first child
    named head when there is one; otherwise of a new empty head, put
    before the first child named body, or first when there is no body. *)
Inductive HeadEdited (f : list Node -> list Node) : Node -> Node -> Prop :=
| head_existing nm a cs i ha hcs :
    first_named "head" cs i ->
    cs !! i = Some (Elem "head" ha (Some hcs)) ->
    HeadEdited f (Elem nm a (Some cs))
      (Elem nm a (Some (<[i := Elem "head" ha (Some (f hcs))]> cs)))
| head_before_body nm a cs i :
    none_named "head" cs ->
    first_named "body" cs i ->
    HeadEdited f (Elem nm a (Some cs))
      (Elem nm a (Some (take i cs ++ Elem "head" (Some []) (Some (f [])) :: drop i cs)))
| head_at_front nm a cs :
    none_named "head" cs ->
    none_named "body" cs ->
    HeadEdited f (Elem nm a (Some cs))
      (Elem nm a (Some (Elem "head" (Some []) (Some (f [])) :: cs))).

(** Some node of the tree is named title. *)
Definition has_title (root : Node) : Prop :=
  ∃ n, n ∈ preorder (INode root) ∧ node_name n = Some "title".

(** A tree without what its title nodes hold. *)
Fixpoint erase_titles (n : Node) : Node :=
  match n with
  | Text _ => n
  | Elem nm a cs =>
      if String.eqb nm "title" then Elem nm a None
      else Elem nm a match cs with
                     | Some l => Some (map erase_titles l)
                     | None => None
                     end
  end.

(** The attribute [key] of a view, when the view has attribs with it. *)
Definition attr_of (d : NodeProps) (key : string) : option string :=
  attribs d ≫= attr_get key.

(** A view signals a charset: it is of a meta node with a non-empty charset
    attribute, or with http-equiv equal to content-type and content
    containing charset, or with name equal to charset, the last three up to
    case. *)
Definition signals_charset (d : NodeProps) : Prop :=
  name d = Some "meta"
  ∧ ((∃ v, attr_of d "charset" = Some v ∧ v ≠ EmptyString)
     ∨ ((∃ v, attr_of d "http-equiv" = Some v ∧ Js.toLowerCase v = "content-type")
        ∧ (∃ w, attr_of d "content" = Some w
                ∧ Js.includes "charset" (Js.toLowerCase w) = true))
     ∨ (∃ v, attr_of d "name" = Some v ∧ Js.toLowerCase v = "charset")).

(** A view of a meta node whose name attribute is viewport. *)
Definition is_viewport (d : NodeProps) : Prop :=
  name d = Some "meta" ∧ attr_of d "name" = Some "viewport".

(** The number of nodes named meta in the trees [l]. *)
Definition metas (l : list Node) : nat :=
  length (List.filter (named "meta") (List.flat_map preorder_node l)).

(** The name and attribs of every element of a tree, in pre-order. *)
Fixpoint labels (n : Node) : list (string * option Attribs) :=
  match n with
  | Text _ => []
  | Elem nm a cs =>
      (nm, a) :: match cs with
                 | Some l => List.flat_map labels l
                 | None => []
                 end
  end.

(** The root keeps its name and attribs. *)
Definition same_root (root root' : Node) : Prop :=
  node_name root' = node_name root ∧ node_attribs root' = node_attribs root.

(** [root'] is [root] with nodes taken out: the elements of [root'] are
    elements of [root], in order, with the name and attribs they had. *)
Definition Shrunk (root root' : Node) : Prop :=
  same_root root root' ∧ labels root' `sublist_of` labels root.

(** [root'] is [root] with nodes put in: the elements of [root] are
    elements of [root'], in order, with the name and attribs they had. *)
Definition Grown (root root' : Node) : Prop :=
  same_root root root' ∧ labels root `sublist_of` labels root'.

(** The round trip of a tree through [jsonToHtml] and [htmlToJson] is
    stable: it gives a tree with the same name, the same attribs and as
    many children. *)
Definition roundtrip_stable (parseDocument : string -> Document) (T : Node) : Prop :=
  ∃ T', htmlToJson parseDocument (jsonToHtml T) = Some T'
        ∧ node_name T' = node_name T
        ∧ node_attribs T' = node_attribs T
        ∧ length <$> node_children T' = length <$> node_children T.

(** A raw node mirrors a canonical node: it is what reading the HTML text
    of the node gives when no string of the node holds markup.  A string
    is a text node, an element is an element-like node with the same name,
    the same attribs and the mirrored children; an empty string leaves no
    text node. *)
Inductive Mirrors : RawNode -> Node -> Prop :=
| mirrors_text s : s ≠ EmptyString -> Mirrors (RawText s) (Text s)
| mirrors_elem ty nm a rcs cs :
    MirrorsChildren rcs cs ->
    Mirrors (RawElement ty nm (Some a) (Some rcs)) (Elem nm (Some a) (Some cs))
with MirrorsChildren : list RawNode -> list Node -> Prop :=
| mirrors_nil : MirrorsChildren [] []
| mirrors_cons r rs c cs :
    Mirrors r c -> MirrorsChildren rs cs -> MirrorsChildren (r :: rs) (c :: cs)
| mirrors_empty rs cs :
    MirrorsChildren rs cs -> MirrorsChildren rs (Text EmptyString :: cs).

(** [s] does not contain [stop]. *)
Fixpoint lacks (stop : ascii) (s : string) : bool :=
  match s with
  | EmptyString => true
  | String c s' => negb (Ascii.eqb c stop) && lacks stop s'
  end.

(** A string that can stand between double quotes as it is: it holds no
    double quote, which would end the value, and no ampersand, which
    would begin a character reference. *)
Definition plain_value (s : string) : bool :=
  lacks quote_char s && lacks "&" s.

(** A string that can stand as text as it is: it holds no <, which would
    begin a tag, and no ampersand. *)
Definition plain_text (s : string) : bool :=
  lacks "<" s && lacks "&" s.

(** An option that is absent, or whose value can stand between double
    quotes as it is. *)
Definition plain_option (o : option string) : bool :=
  match o with
  | Some s => plain_value s
  | None => true
  end.

(** The lang a document skeleton is made with: an absent or empty lang
    gives no attribute. *)
Definition given_lang (options : Options) : option string :=
  match lang options with
  | Some l => if Js.truthy l then Some l else None
  | None => None
  end.

(** The HTML text of a document skeleton with the given lang, charset,
    viewport and title. *)
Definition skeleton_text (lang : option string) (charset viewport title : string) : string :=
  let inside :=
    "<head><meta charset=" +:+ quote_mark +:+ charset +:+ quote_mark
    +:+ " /><meta name=" +:+ quote_mark +:+ "viewport" +:+ quote_mark
    +:+ " content=" +:+ quote_mark +:+ viewport +:+ quote_mark
    +:+ " /><title>" +:+ title +:+ "</title></head><body></body></html>" in
  match lang with
  | Some l => "<html lang=" +:+ quote_mark +:+ l +:+ quote_mark +:+ ">" +:+ inside
  | None => "<html>" +:+ inside
  end.

(** The element that the text of a document skeleton denotes: the html
    element with its lang, the head with the two meta elements and the
    title, and the body.  An empty title leaves no text node. *)
Definition skeleton_raw (lang : option string) (charset viewport title : string) : RawNode :=
  RawElement Tag "html"
    (Some match lang with
          | Some l => [("lang", l)]
          | None => []
          end)
    (Some [ RawElement Tag "head" (Some [])
              (Some [ RawElement Tag "meta" (Some [("charset", charset)]) (Some []);
                      RawElement Tag "meta"
                        (Some [("name", "viewport"); ("content", viewport)]) (Some []);
                      RawElement Tag "title" (Some [])
                        (Some match title with
                              | EmptyString => []
                              | _ => [RawText title]
                              end) ]);
            RawElement Tag "body" (Some []) (Some []) ]).

(** The adapter reads the text of a document skeleton as the element the
    text denotes, when the attribute values can stand between quotes and
    the title can stand as text as they are: this element is the first
    top-level node named html of the document it returns. *)
Definition reads_skeletons (parseDocument : string -> Document) : Prop :=
  ∀ lang charset viewport title,
    plain_option lang = true -> plain_value charset = true ->
    plain_value viewport = true -> plain_text title = true ->
    ∃ pre post,
      dom_children (parseDocument (skeleton_text lang charset viewport title))
      = pre ++ skeleton_raw lang charset viewport title :: post
      ∧ Forall not_html pre.

(** *** A reader of document skeletons

    An adapter for texts of the shape of a document skeleton.  It reads a
    text piece by piece: a fixed part must be there as it is, an attribute
    value runs up to the closing quote, and the title up to the next tag. *)

(** A piece of a text: a fixed part, or a string that runs up to the next
    [stop], which ends it. *)
Inductive Piece : Type :=
| Lit (s : string)
| Hole (stop : ascii).

(** [s] without [p] in front, when [s] begins with [p]. *)
Fixpoint strip_prefix (p s : string) : option string :=
  match p, s with
  | EmptyString, _ => Some s
  | String a p', String b s' => if Ascii.eqb a b then strip_prefix p' s' else None
  | String _ _, EmptyString => None
  end.

(** [s] up to its first [stop], and what follows this [stop]. *)
Fixpoint read_until (stop : ascii) (s : string) : option (string * string) :=
  match s with
  | EmptyString => None
  | String c s' =>
      if Ascii.eqb c stop then Some (EmptyString, s')
      else
        match read_until stop s' with
        | Some (v, rest) => Some (String c v, rest)
        | None => None
        end
  end.

(** The strings of the holes of [ps] in the text [s], when [s] is made of
    the pieces [ps] and nothing else. *)
Fixpoint read_pieces (ps : list Piece) (s : string) : option (list string) :=
  match ps with
  | [] => if String.eqb s EmptyString then Some [] else None
  | Lit p :: ps' =>
      match strip_prefix p s with
      | Some s' => read_pieces ps' s'
      | None => None
      end
  | Hole stop :: ps' =>
      match read_until stop s with
      | Some (v, s') =>
          match read_pieces ps' s' with
          | Some vs => Some (v :: vs)
          | None => None
          end
      | None => None
      end
  end.

(** The text made of the pieces [ps] with the strings [vs] in the holes. *)
Fixpoint write_pieces (ps : list Piece) (vs : list string) : string :=
  match ps, vs with
  | [], _ => EmptyString
  | Lit p :: ps', _ => p +:+ write_pieces ps' vs
  | Hole stop :: ps', v :: vs' => v +:+ String stop (write_pieces ps' vs')
  | Hole _ :: _, [] => EmptyString
  end.

(** There is one string for each hole of [ps], without the [stop] of the
    hole. *)
Fixpoint fits (ps : list Piece) (vs : list string) : bool :=
  match ps, vs with
  | [], [] => true
  | Lit _ :: ps', _ => fits ps' vs
  | Hole stop :: ps', v :: vs' => lacks stop v && fits ps' vs'
  | _, _ => false
  end.

(** The pieces of the text of a document skeleton, with or without a
    lang. *)
Definition skeleton_pieces (with_lang : bool) : list Piece :=
  (if with_lang
   then [Lit "<html lang="; Lit quote_mark; Hole quote_char; Lit ">"]
   else [Lit "<html>"])
  ++ [ Lit "<head><meta charset="; Lit quote_mark; Hole quote_char;
       Lit " /><meta name="; Lit quote_mark; Lit "viewport"; Lit quote_mark;
       Lit " content="; Lit quote_mark; Hole quote_char;
       Lit " /><title>"; Hole "<"; Lit "/title></head><body></body></html>" ].

(** The document read from a text: the element of a document skeleton when
    the text has the shape of one, and nothing otherwise. *)
Definition read_skeleton (s : string) : Document :=
  {| dom_children :=
       match read_pieces (skeleton_pieces true) s with
       | Some [l; c; v; t] => [skeleton_raw (Some l) c v t]
       | _ =>
           match read_pieces (skeleton_pieces false) s with
           | Some [c; v; t] => [skeleton_raw None c v t]
           | _ => []
           end
       end |}.

(** A tree keeps the invariants of the codec: every element has attribs
    and children, and no string is blank. *)
Fixpoint isCanonical (n : Node) : bool :=
  match n with
  | Text s => negb (Js.blank s)
  | Elem _ (Some _) (Some cs) => forallb isCanonical cs
  | Elem _ _ _ => false
  end.

(** The number of nodes named [key] in the trees [l]. *)
Definition count_named (key : string) (l : list Node) : nat :=
  length (List.filter (named key) (List.flat_map preorder_node l)).

(** The first child of the root named head has no [children]. *)
Definition head_without_children (root : Node) : Prop :=
  ∃ nm a cs i c,
    root = Elem nm a (Some cs) ∧ first_named "head" cs i
    ∧ cs !! i = Some c ∧ node_children c = None.

(** The nodes below a node, in pre-order. *)
Definition descendants (n : Node) : list Node :=
  match node_children n with
  | Some l => List.flat_map preorder_node l
  | None => []
  end.

(** A predicate that looks at the name and the attribs of a view only. *)
Definition ignores_content (p : NodeProps -> bool) : Prop :=
  ∀ d d', name d = name d' -> attribs d = attribs d' -> p d = p d'.

(** The records of an element with the given name and attribs. *)
Definition label_resources (l : string * option Attribs) : list Resource :=
  resources_of (Elem (fst l) (snd l) None).

(** A tree with every absent [attribs] and [children] made empty. *)
Fixpoint withDefaults (n : Node) : Node :=
  match n with
  | Text _ => n
  | Elem nm a cs =>
      Elem nm (Some (default [] a))
           (Some match cs with
                 | Some l => map withDefaults l
                 | None => []
                 end)
  end.

(** [d => d.name === 'title' && d.content === text] *)
Definition titleIs (text : string) (d : NodeProps) : bool :=
  isTitle d
  && match content d with Some s => String.eqb s text | None => false end.

(** Every element of a tree has attribs and children. *)
Fixpoint isComplete (n : Node) : bool :=
  match n with
  | Text _ => true
  | Elem _ (Some _) (Some cs) => forallb isComplete cs
  | Elem _ _ _ => false
  end.

(** * Proofs *)

(** ** Induction on trees *)

Lemma Node_ind (P : Node -> Prop) :
  (∀ s, P (Text s)) ->
  (∀ nm a, P (Elem nm a None)) ->
  (∀ nm a l, Forall P l -> P (Elem nm a (Some l))) ->
  ∀ n, P n.
Proof.
  intros Htext Hleaf Helem.
  fix IH 1. intros [s | nm a [l |]].
  - apply Htext.
  - apply Helem. induction l as [| c l IHl]; constructor; [apply IH | apply IHl].
  - apply Hleaf.
Qed.

Lemma RawNode_ind (P : RawNode -> Prop) :
  (∀ data, P (RawText data)) ->
  (∀ ty nm a, P (RawElement ty nm a None)) ->
  (∀ ty nm a l, Forall P l -> P (RawElement ty nm a (Some l))) ->
  (∀ ty l, P (RawOther ty l)) ->
  ∀ n, P n.
Proof.
  intros Htext Hleaf Helem Hother.
  fix IH 1. intros [data | ty nm a [l |] | ty l].
  - apply Htext.
  - apply Helem. induction l as [| c l IHl]; constructor; [apply IH | apply IHl].
  - apply Hleaf.
  - apply Hother.
Qed.

(** ** Strings *)

Lemma trimEnd_empty s : Js.trimEnd s = EmptyString ↔ Js.blank s = true.
Proof.
  induction s as [| c s IH]; simpl; [done |].
  destruct (Js.trimEnd s) eqn:E.
  - destruct (Js.is_whitespace c); simpl; [tauto |].
    split; [discriminate | done].
  - split; [discriminate |].
    intros [_ Hb]%andb_prop. apply IH in Hb. discriminate.
Qed.

Lemma blank_trimStart s : Js.blank (Js.trimStart s) = Js.blank s.
Proof.
  induction s as [| c s IH]; simpl; [done |].
  destruct (Js.is_whitespace c) eqn:E; simpl; [done |]. by rewrite E.
Qed.

Lemma truthy_trim s : Js.truthy (Js.trim s) = negb (Js.blank s).
Proof.
  unfold Js.trim. rewrite <- (blank_trimStart s).
  destruct (Js.trimEnd (Js.trimStart s)) eqn:E.
  - apply trimEnd_empty in E. by rewrite E.
  - destruct (Js.blank (Js.trimStart s)) eqn:B; [| done].
    apply trimEnd_empty in B. congruence.
Qed.

Lemma blank_false s : Js.blank s = false ↔ has_non_whitespace s.
Proof.
  unfold has_non_whitespace. induction s as [| c s IH]; simpl.
  - split; [discriminate | intros (c & Hc & _); inversion Hc].
  - rewrite andb_false_iff, IH. split.
    + intros [Hc | (d & Hd & Hw)]; [exists c | exists d]; split; try done.
      * by left.
      * by right.
    + intros (d & Hd & Hw). apply elem_of_cons in Hd as [-> | Hd]; [by left |].
      right. by exists d.
Qed.

Lemma startsWith_spec p s : Js.startsWith p s = true ↔ ∃ t, s = p +:+ t.
Proof.
  revert s. induction p as [| a p IH]; intros s; simpl.
  - split; [by exists s | done].
  - destruct s as [| b s]; [split; [done | by intros (t & [=])] |].
    rewrite andb_true_iff, Ascii.eqb_eq, IH. split.
    + intros [-> (t & ->)]. by exists t.
    + intros (t & [= -> ->]). split; [done | by exists t].
Qed.

(** [Js.includes] is the test for a substring. *)
Lemma includes_spec needle hay :
  Js.includes needle hay = true ↔ ∃ pre post, hay = pre +:+ needle +:+ post.
Proof.
  induction hay as [| c hay IH]; simpl.
  - rewrite orb_false_r, startsWith_spec. split.
    + intros (t & Ht). by exists EmptyString, t.
    + intros ([| ? ?] & post & H); [by exists post | discriminate H].
  - rewrite orb_true_iff, IH.
    rewrite (startsWith_spec needle (String c hay)). split.
    + intros [(t & Ht) | (pre & post & ->)].
      * by exists EmptyString, t.
      * by exists (String c pre), post.
    + intros ([| d pre] & post & H).
      * left. by exists post.
      * right. injection H as -> ->. by exists pre, post.
Qed.

(** ** The codec: from the raw parse tree *)

Lemma nodeToJson_truthy r n : nodeToJson r = Some n -> falsy n = false.
Proof.
  destruct r as [data | ty nm a cs | ty l]; simpl; [| by intros [= <-] | done].
  destruct (Js.truthy (Js.trim data)) eqn:E; [| done].
  intros [= <-]. simpl. destruct data; [done | done].
Qed.

Lemma filterBoolean_cons r l :
  filterBoolean (nodeToJson r :: l) =
  match nodeToJson r with
  | Some n => n :: filterBoolean l
  | None => filterBoolean l
  end.
Proof.
  unfold filterBoolean. simpl.
  destruct (nodeToJson r) as [n |] eqn:E; [| done].
  by rewrite (nodeToJson_truthy _ _ E).
Qed.

Lemma nodeToJson_canonical r : Canonical r (nodeToJson r).
Proof.
  induction r as [data | ty nm a | ty nm a l IH | ty l] using RawNode_ind; simpl.
  - rewrite truthy_trim. destruct (Js.blank data) eqn:B; simpl.
    + apply canonical_blank. intros H%blank_false. congruence.
    + apply canonical_text. by apply blank_false.
  - apply canonical_element. constructor.
  - apply canonical_element. simpl.
    induction IH as [| r l Hr _ IHl]; [constructor |].
    change (map nodeToJson (r :: l)) with (nodeToJson r :: map nodeToJson l).
    rewrite filterBoolean_cons.
    destruct (nodeToJson r); [by apply canonical_keep | by apply canonical_drop].
  - apply canonical_other.
Qed.

Lemma find_first {A} (p : A -> bool) pre x post :
  Forall (λ y, p y = false) pre -> p x = true ->
  List.find p (pre ++ x :: post) = Some x.
Proof.
  intros Hpre Hx. induction Hpre as [| y pre Hy _ IH]; simpl.
  - by rewrite Hx.
  - by rewrite Hy.
Qed.

Lemma find_none {A} (p : A -> bool) l :
  Forall (λ y, p y = false) l -> List.find p l = None.
Proof.
  induction 1 as [| y l Hy _ IH]; simpl; [done |]. by rewrite Hy.
Qed.

Lemma not_html_test r :
  not_html r ->
  match raw_name r with Some nm => String.eqb nm "html" | None => false end = false.
Proof.
  unfold not_html. destruct (raw_name r) as [nm |]; [| done].
  intros H. apply String.eqb_neq. congruence.
Qed.

(** C1: when no top-level node of the parsed document is an element named
    html, [htmlToJson] returns null; otherwise it returns the canonical
    tree of the first such element, where a text node with a character that
    is not white space becomes its data, a blank text node is left out, a
    tag, script or style node becomes an element with its name, an attribs
    mapping and the canonical children, and a node of another type and its
    subtree are left out. *)
Theorem htmlToJson_canonical (parseDocument : string -> Document) (html : string) :
  let top := dom_children (parseDocument html) in
  (Forall not_html top -> htmlToJson parseDocument html = None)
  ∧ (∀ pre r post,
       top = pre ++ r :: post -> Forall not_html pre -> raw_name r = Some "html" ->
       ∃ nm a kids,
         htmlToJson parseDocument html = Some (Elem nm (Some a) (Some kids))
         ∧ Canonical r (Some (Elem nm (Some a) (Some kids))))
  ∧ (∀ r, Canonical r (nodeToJson r))
  ∧ (∀ r, raw_type r = "text" ↔ ∃ data, r = RawText data)
  ∧ (∀ r, raw_type r ∈ ["tag"; "script"; "style"] ↔
          ∃ ty nm a cs, r = RawElement ty nm a cs).
Proof.
  intros top. repeat split.
  - intros Hall. unfold htmlToJson. fold top.
    rewrite find_none; [done |].
    eapply Forall_impl; [exact Hall |]. intros r. apply not_html_test.
  - intros pre r post Htop Hpre Hr. unfold htmlToJson. fold top. rewrite Htop.
    rewrite find_first.
    + destruct r as [data | ty nm a cs | ty l]; try discriminate.
      pose proof (nodeToJson_canonical (RawElement ty nm a cs)) as Hc.
      simpl in *. eauto.
    + eapply Forall_impl; [exact Hpre |]. intros x. apply not_html_test.
    + by rewrite Hr.
  - apply nodeToJson_canonical.
  - destruct r as [data | [] nm a cs | [] l]; simpl; try discriminate; eauto.
  - intros (data & ->). done.
  - destruct r as [data | ty nm a cs | [] l]; simpl; eauto;
      intros H; repeat (apply elem_of_cons in H as [H | H]; [discriminate |]);
      by apply elem_of_nil in H.
  - intros (ty & nm & a & cs & ->). destruct ty; simpl.
    + apply list_elem_of_here.
    + apply list_elem_of_further, list_elem_of_here.
    + do 2 apply list_elem_of_further. apply list_elem_of_here.
Qed.

(** ** The codec: to HTML text *)

Lemma truthy_app_l s t : Js.truthy s = true -> Js.truthy (s +:+ t) = true.
Proof. by destruct s. Qed.

Lemma attr_entry_truthy kv : Js.truthy (attr_entry kv) = true.
Proof.
  unfold attr_entry. destruct kv as [k v]. simpl. by destruct k.
Qed.

Lemma attrStr_truthy (a : Attribs) :
  Js.truthy (Js.join " " (map attr_entry a)) = true ↔ a ≠ [].
Proof.
  destruct a as [| kv a]; simpl; [split; [discriminate | done] |].
  split; [done | intros _].
  destruct (map attr_entry a).
  - apply attr_entry_truthy.
  - apply truthy_app_l, attr_entry_truthy.
Qed.

Lemma append_empty_r s : s +:+ EmptyString = s.
Proof.
  induction s as [| c s IH]; [done |].
  change (String c (s +:+ EmptyString) = String c s). by rewrite IH.
Qed.

Lemma join_empty_sep (l : list string) :
  Js.join EmptyString l = foldr String.append EmptyString l.
Proof.
  induction l as [| p ps IH]; simpl; [done |].
  destruct ps as [| q ps]; [by rewrite append_empty_r |].
  by rewrite <- IH.
Qed.

Lemma includes_str_spec (l : list string) x : includes_str l x = true ↔ x ∈ l.
Proof.
  unfold includes_str. rewrite existsb_exists, list_elem_of_In. split.
  - intros (y & Hy & ->%String.eqb_eq). done.
  - intros H. exists x. split; [done | apply String.eqb_refl].
Qed.

Lemma jsonToHtml_Elem nm a cs :
  jsonToHtml (Elem nm a cs) =
  let attrStr := Js.join " " (map attr_entry (default [] a)) in
  if includes_str SELF_CLOSING_TAGS nm && Nat.eqb (length (default [] cs)) 0 then
    if Js.truthy attrStr then "<" +:+ nm +:+ " " +:+ attrStr +:+ " />"
    else "<" +:+ nm +:+ " />"
  else
    (if Js.truthy attrStr then "<" +:+ nm +:+ " " +:+ attrStr +:+ ">"
     else "<" +:+ nm +:+ ">")
    +:+ Js.join EmptyString (map jsonToHtml (default [] cs)) +:+ "</" +:+ nm +:+ ">".
Proof. by destruct cs. Qed.

Lemma attrStr_pairs_text (a : Attribs) :
  Js.join " " (map attr_entry a) = pairs_text a.
Proof.
  induction a as [| [k v] rest IH]; [done |].
  destruct rest as [| kv rest]; [done |].
  change (attr_entry (k, v) +:+ " " +:+ Js.join " " (map attr_entry (kv :: rest))
          = (k +:+ "=" +:+ quote_mark +:+ v +:+ quote_mark)
            +:+ " " +:+ pairs_text (kv :: rest)).
  by rewrite IH.
Qed.

(** C2: an element whose name is one of meta, base, link, img, br, hr,
    input, area and source and that has no children renders as [<name />]
    when it has no attributes and as [<name k="v" ... />] otherwise, the
    pairs written key="value" and separated by single spaces; every other
    element renders as its open tag, its serialized children and the
    closing tag [</name>]. *)
Theorem jsonToHtml_element (nm : string) (a : option Attribs) (cs : option (list Node)) :
  let attribs := default [] a in
  let children := default [] cs in
  (nm ∈ void_names -> children = [] ->
     (attribs = [] -> jsonToHtml (Elem nm a cs) = "<" +:+ nm +:+ " />")
     ∧ (attribs ≠ [] ->
        jsonToHtml (Elem nm a cs)
        = "<" +:+ nm +:+ " " +:+ pairs_text attribs +:+ " />"))
  ∧ (¬ (nm ∈ void_names ∧ children = []) ->
     jsonToHtml (Elem nm a cs) =
       (match attribs with
        | [] => "<" +:+ nm +:+ ">"
        | _ => "<" +:+ nm +:+ " " +:+ pairs_text attribs +:+ ">"
        end)
       +:+ foldr String.append EmptyString (map jsonToHtml children)
       +:+ "</" +:+ nm +:+ ">").
Proof.
  intros attribs children.
  assert (Hlen : Nat.eqb (length children) 0 = true ↔ children = []).
  { rewrite Nat.eqb_eq. by destruct children. }
  assert (Hvoid : includes_str SELF_CLOSING_TAGS nm = true ↔ nm ∈ void_names).
  { apply includes_str_spec. }
  assert (Hsome : attribs ≠ [] -> Js.truthy (pairs_text attribs) = true).
  { rewrite <- attrStr_pairs_text. apply attrStr_truthy. }
  assert (Hnone : attribs = [] -> Js.truthy (pairs_text attribs) = false).
  { by intros ->. }
  rewrite jsonToHtml_Elem. cbv zeta. fold attribs children.
  rewrite attrStr_pairs_text.
  split.
  - intros Hv%Hvoid Hnil%Hlen. rewrite Hv, Hnil. simpl. split.
    + intros Ha%Hnone. by rewrite Ha.
    + intros Ha%Hsome. by rewrite Ha.
  - intros Hnot. rewrite join_empty_sep.
    destruct (includes_str SELF_CLOSING_TAGS nm && Nat.eqb (length children) 0) eqn:E.
    + apply andb_prop in E as [E1%Hvoid E2%Hlen]. tauto.
    + destruct attribs as [| kv rest] eqn:Ea.
      * by rewrite Hnone.
      * by rewrite Hsome.
Qed.

(** ** Traversal *)

Section TraverseFacts.
Context {S : Type} (callback : Node -> S -> S).

Let step (acc : S) (n : Node) : S := callback n acc.
Let kept (n : Node) : bool := negb (falsy n).

Lemma traverse_children (l : list Node) (s : S) :
  Forall (λ n, ∀ s, traverse_node callback n s
                    = fold_left step (List.filter kept (preorder_node n)) s) l ->
  fold_left (fun acc child => traverse_node callback child acc) l s
  = fold_left step (List.filter kept (List.flat_map preorder_node l)) s.
Proof.
  intros H. revert s. induction H as [| n l Hn _ IH]; intros s; simpl; [done |].
  rewrite List.filter_app, fold_left_app, <- Hn. apply IH.
Qed.

Lemma traverse_node_preorder (n : Node) (s : S) :
  traverse_node callback n s
  = fold_left step (List.filter kept (preorder_node n)) s.
Proof.
  revert s. induction n as [str | nm a | nm a l IH] using Node_ind; intros s.
  - simpl. unfold kept. simpl. by destruct (Js.truthy str).
  - done.
  - simpl. by rewrite traverse_children.
Qed.

Lemma traverse_preorder (root : Input) (s : S) :
  traverse callback root s = fold_left step (nonempty_nodes root) s.
Proof.
  destruct root as [| l | n]; simpl; [done | | apply traverse_node_preorder].
  apply traverse_children, Forall_forall. intros n _ s'.
  apply traverse_node_preorder.
Qed.
End TraverseFacts.

Lemma fold_left_snoc {A} (l : list A) (acc : list A) :
  fold_left (fun acc n => acc ++ [n]) l acc = acc ++ l.
Proof.
  revert acc. induction l as [| x l IH]; intros acc; simpl.
  - by rewrite app_nil_r.
  - by rewrite IH, <- app_assoc.
Qed.

Lemma visits_nonempty_nodes (root : Input) : visits root = nonempty_nodes root.
Proof.
  unfold visits. rewrite traverse_preorder. apply fold_left_snoc.
Qed.

(** C4, as amended: [traverse] calls the callback on the nodes of the tree
    that are not the empty string, each once, in depth-first pre-order; a
    null root gives no call, an array of roots is walked in order, and an
    element without [children] has no children. *)
Theorem traverse_visits_nonempty_preorder
    {S : Type} (callback : Node -> S -> S) (root : Input) (s : S) :
  traverse callback root s
  = fold_left (fun acc n => callback n acc) (nonempty_nodes root) s
  ∧ visits root = nonempty_nodes root
  ∧ traverse callback INull s = s
  ∧ (∀ l, traverse callback (IArray l) s
          = fold_left (fun acc n => traverse callback (INode n) acc) l s)
  ∧ (∀ nm a, traverse callback (INode (Elem nm a None)) s
             = callback (Elem nm a None) s)
  ∧ (∀ nm a l, traverse callback (INode (Elem nm a (Some l))) s
               = traverse callback (IArray l) (callback (Elem nm a (Some l)) s)).
Proof.
  split; [apply traverse_preorder |].
  split; [apply visits_nonempty_nodes |]. done.
Qed.

(** C4, as stated, fails on the document skeleton with the default title:
    its title holds the empty string, which is a node of the tree and on
    which the callback is not called. *)
Lemma traverse_skips_empty_text :
  let doc := INode (createHtmlDocument EmptyString (mkOptions None None None)) in
  (Text EmptyString ∈ preorder doc)
  ∧ (Text EmptyString ∉ visits doc)
  ∧ visits doc ≠ preorder doc.
Proof.
  cbv zeta. split; [| split].
  - apply list_elem_of_In. vm_compute. tauto.
  - intros H%list_elem_of_In. vm_compute in H.
    repeat (destruct H as [H | H]; [discriminate |]). done.
  - vm_compute. discriminate.
Qed.

(** ** Search *)

Section HasNodeFacts.
Variable predicate : NodeProps -> bool.

Let test (n : Node) : bool := predicate (getNodeProps n).
Let kept (n : Node) : bool := negb (falsy n).

Lemma hasNode_children (l : list Node) :
  Forall (λ n, hasNode_node predicate n
               = existsb test (List.filter kept (preorder_node n))) l ->
  existsb (hasNode_node predicate) l
  = existsb test (List.filter kept (List.flat_map preorder_node l)).
Proof.
  induction 1 as [| n l Hn _ IH]; simpl; [done |].
  by rewrite List.filter_app, existsb_app, Hn, IH.
Qed.

Lemma hasNode_node_preorder (n : Node) :
  hasNode_node predicate n = existsb test (List.filter kept (preorder_node n)).
Proof.
  induction n as [str | nm a | nm a l IH] using Node_ind.
  - simpl. unfold kept. simpl. destruct (Js.truthy str); simpl; [| done].
    by rewrite orb_false_r.
  - done.
  - simpl. by rewrite hasNode_children.
Qed.

Lemma hasNode_preorder (root : Input) :
  hasNode predicate root = existsb test (nonempty_nodes root).
Proof.
  destruct root as [| l | n]; simpl; [done | | apply hasNode_node_preorder].
  apply hasNode_children, Forall_forall. intros n _.
  apply hasNode_node_preorder.
Qed.
End HasNodeFacts.

(** C5, as amended: [hasNode] returns true exactly when the predicate holds
    of the view of some node that traversal visits, that is, of some node
    other than the empty string; the view of a string has no name and no
    attribs and the string as content; the view of an element has its name
    and attribs, and a content exactly when its children are one string;
    on null and on the empty array the answer is false. *)
Theorem hasNode_iff_visited (predicate : NodeProps -> bool) (root : Input) :
  (hasNode predicate root = true ↔
     ∃ n, n ∈ visits root ∧ predicate (getNodeProps n) = true)
  ∧ visits root = nonempty_nodes root
  ∧ (∀ s, getNodeProps (Text s) = mkProps None None (Some s))
  ∧ (∀ nm a cs,
       name (getNodeProps (Elem nm a cs)) = Some nm
       ∧ attribs (getNodeProps (Elem nm a cs)) = a
       ∧ (∀ t, content (getNodeProps (Elem nm a cs)) = Some t ↔ cs = Some [Text t])
       ∧ (content (getNodeProps (Elem nm a cs)) = None ↔ ¬ ∃ t, cs = Some [Text t]))
  ∧ hasNode predicate INull = false
  ∧ hasNode predicate (IArray []) = false.
Proof.
  split; [| split; [apply visits_nonempty_nodes | split; [done | split; [| done]]]].
  - rewrite hasNode_preorder, visits_nonempty_nodes, existsb_exists.
    split; intros (n & Hn & Hp); exists n; split; try done;
      by apply list_elem_of_In.
  - intros nm a cs. split; [done | split; [done |]].
    split.
    + intros t. split; [| by intros ->].
      destruct cs as [[| [s |] [|]] |]; simpl; intros [=]; by subst.
    + split; [intros H (t & ->); discriminate |].
      destruct cs as [[| [s |] [|]] |]; simpl; try done.
      intros H. exfalso. apply H. eauto.
Qed.

(** C5, as stated, fails on the document skeleton with the default title:
    the empty string in its title is a node of the tree whose view has no
    name, and [hasNode] does not find it. *)
Lemma hasNode_misses_empty_text :
  let doc := INode (createHtmlDocument EmptyString (mkOptions None None None)) in
  let is_text := fun d : NodeProps =>
                   match name d with None => true | Some _ => false end in
  (∃ n, n ∈ preorder doc ∧ is_text (getNodeProps n) = true)
  ∧ hasNode is_text doc = false.
Proof.
  cbv zeta. split; [| by vm_compute].
  exists (Text EmptyString). split; [| done].
  apply list_elem_of_In. vm_compute. tauto.
Qed.

(** ** Resources *)

Lemma push_resources nm (a : Attribs) (keys : list string) (acc : list Resource) :
  fold_left
    (fun res attr =>
       match attr_get attr a with
       | Some value =>
           if Js.truthy value then res ++ [mkResource nm attr value] else res
       | None => res
       end) keys acc
  = acc ++ omap (fun key =>
                   match attr_get key a with
                   | Some v => if decide (v = EmptyString) then None
                               else Some (mkResource nm key v)
                   | None => None
                   end) keys.
Proof.
  revert acc. induction keys as [| k keys IH]; intros acc; simpl.
  - by rewrite app_nil_r.
  - rewrite IH. destruct (attr_get k a) as [v |]; [| done].
    destruct v; simpl; [done |]. by rewrite <- app_assoc.
Qed.

Lemma fold_left_flat_map {A B} (f : A -> list B) (l : list A) (acc : list B) :
  fold_left (fun acc n => acc ++ f n) l acc = acc ++ List.flat_map f l.
Proof.
  revert acc. induction l as [| x l IH]; intros acc; simpl.
  - by rewrite app_nil_r.
  - by rewrite IH, <- app_assoc.
Qed.

Lemma fold_left_pointwise {A B} (f g : A -> B -> A) (l : list B) (acc : A) :
  (∀ acc x, f acc x = g acc x) -> fold_left f l acc = fold_left g l acc.
Proof.
  intros H. revert acc. induction l as [| x l IH]; intros acc; simpl; [done |].
  by rewrite H, IH.
Qed.

Lemma flat_map_resources_nonempty (l : list Node) :
  List.flat_map resources_of (List.filter (fun n => negb (falsy n)) l)
  = List.flat_map resources_of l.
Proof.
  induction l as [| n l IH]; simpl; [done |].
  destruct n as [s | nm a cs]; simpl.
  - destruct (Js.truthy s); simpl; done.
  - by rewrite IH.
Qed.

(** C9: [extractAllResources] returns, for the nodes of the tree in
    depth-first pre-order, and for each node in the order src, href, data,
    action, one record for each of these attributes that the node has with
    a non-empty value. *)
Theorem extractAllResources_preorder (root : Input) :
  extractAllResources root = List.flat_map resources_of (preorder root).
Proof.
  unfold extractAllResources. rewrite traverse_preorder.
  rewrite <- flat_map_resources_nonempty. fold (nonempty_nodes root).
  rewrite <- (app_nil_l (List.flat_map _ _)), <- fold_left_flat_map.
  apply fold_left_pointwise. intros acc n.
  destruct n as [s | nm [a |] cs].
  - simpl. by rewrite app_nil_r.
  - exact (push_resources nm a RESOURCE_ATTRS acc).
  - simpl. by rewrite app_nil_r.
Qed.

(** ** Pruning *)

Section RemoveNodesFacts.
Variable predicate : NodeProps -> bool.

Let kept (child : Node) : bool := negb (predicate (getNodeProps child)).

(** The loop of [removeNodes_node] is the [filter] followed by the
    [forEach] of the source. *)
Lemma removeNodes_node_children nm a (l : list Node) :
  removeNodes_node predicate (Elem nm a (Some l))
  = Elem nm a (Some (map (removeNodes_node predicate) (List.filter kept l))).
Proof.
  simpl. do 2 f_equal. induction l as [| c l IH]; simpl; [done |].
  unfold kept at 1. destruct (predicate (getNodeProps c)); simpl; by rewrite IH.
Qed.

Lemma removeNodes_node_pruned (n : Node) :
  Pruned predicate n (removeNodes_node predicate n).
Proof.
  induction n as [s | nm a | nm a l IH] using Node_ind.
  - constructor.
  - constructor.
  - rewrite removeNodes_node_children. constructor.
    induction IH as [| c l Hc _ IHl]; simpl; [constructor |].
    unfold kept at 1. destruct (predicate (getNodeProps c)) eqn:E; simpl.
    + by apply pruned_remove.
    + by apply pruned_keep.
Qed.

Lemma pruned_unique (n n' : Node) :
  Pruned predicate n n' -> n' = removeNodes_node predicate n.
Proof.
  revert n'. induction n as [s | nm a | nm a l IH] using Node_ind; intros n' H.
  - by inversion H.
  - by inversion H.
  - inversion H as [| | ? ? ? cs' Hcs]; subst. clear H.
    rewrite removeNodes_node_children. do 2 f_equal.
    revert cs' Hcs. induction IH as [| c l Hc _ IHl]; intros cs' Hcs.
    + by inversion Hcs.
    + simpl. unfold kept at 1.
      inversion Hcs as [| ? ? ? Hp Hrest | ? c' ? cs'' Hp Hc' Hrest]; subst;
        rewrite Hp; simpl.
      * by apply IHl.
      * f_equal; [by apply Hc | by apply IHl].
Qed.
End RemoveNodesFacts.


(** ** The head of a root *)

Lemma named_spec key n : named key n = true ↔ node_name n = Some key.
Proof.
  unfold named. destruct (node_name n) as [nm |]; [| done].
  rewrite String.eqb_eq. split; congruence.
Qed.

Lemma named_false key n : named key n = false ↔ node_name n ≠ Some key.
Proof.
  rewrite <- named_spec. destruct (named key n); split; congruence.
Qed.

Lemma findIndex_Some {A} (p : A -> bool) (l : list A) (i : nat) :
  findIndex p l = Some i ↔
  (∃ x, l !! i = Some x ∧ p x = true) ∧ ∀ j y, j < i -> l !! j = Some y -> p y = false.
Proof.
  revert i. induction l as [| x l IH]; intros i; simpl.
  - split; [done | intros [(y & Hy & _) _]; done].
  - destruct (p x) eqn:Hx.
    + split.
      * intros [= <-]. split; [by exists x | intros j y Hj; lia].
      * intros [(y & Hy & Hpy) Hmin]. destruct i as [| i]; [done |].
        specialize (Hmin 0 x ltac:(lia) eq_refl). congruence.
    + rewrite fmap_Some. split.
      * intros (k & Hk & ->). apply IH in Hk as [Hk Hmin]. split; [done |].
        intros [| j] y Hj Hy; simpl in Hy; [congruence |].
        apply (Hmin j); [lia | done].
      * intros [(y & Hy & Hpy) Hmin]. destruct i as [| i]; simpl in Hy.
        { congruence. }
        exists i. split; [| done]. apply IH. split; [by exists y |].
        intros j z Hj Hz. apply (Hmin (S j)); [lia | done].
Qed.

Lemma findIndex_None {A} (p : A -> bool) (l : list A) :
  findIndex p l = None ↔ Forall (λ x, p x = false) l.
Proof.
  induction l as [| x l IH]; simpl; [by split; [constructor |] |].
  destruct (p x) eqn:Hx.
  - split; [done | intros H; inversion H; congruence].
  - destruct (findIndex p l); simpl.
    + split; [done |]. intros H. inversion H as [| ? ? _ Hl]; subst.
      by apply IH in Hl.
    + split; [| done]. intros _. constructor; [done | by apply IH].
Qed.

Lemma findIndex_named key cs i :
  findIndex (named key) cs = Some i ↔ first_named key cs i.
Proof.
  rewrite findIndex_Some. unfold first_named. split.
  - intros [(c & Hc & Hn%named_spec) Hmin]. split; [by exists c |].
    intros j c' Hj Hc'. apply named_false. by apply (Hmin j).
  - intros [(c & Hc & Hn%named_spec) Hmin]. split; [by exists c |].
    intros j c' Hj Hc'. apply named_false. by apply (Hmin j).
Qed.

Lemma findIndex_none_named key cs :
  findIndex (named key) cs = None ↔ none_named key cs.
Proof.
  rewrite findIndex_None. unfold none_named.
  split; intros H; (eapply Forall_impl; [exact H |]); intros c; apply named_false.
Qed.

Lemma insert_middle {A} (l : list A) (i : nat) (x y : A) :
  i ≤ length l -> <[i := y]> (take i l ++ x :: drop i l) = take i l ++ y :: drop i l.
Proof.
  intros Hi. rewrite insert_app_r_alt; rewrite length_take; [| lia].
  by replace (i - i `min` length l) with 0 by lia.
Qed.

Lemma lookup_middle {A} (l : list A) (i : nat) (x : A) :
  i ≤ length l -> (take i l ++ x :: drop i l) !! i = Some x.
Proof.
  intros Hi. rewrite lookup_app_r; rewrite length_take; [| lia].
  by replace (i - i `min` length l) with 0 by lia.
Qed.

(** What [ensureHeadNode] followed by an edit of the children of the node
    it returned does to a root that has [children]. *)
Lemma editHead_spec (f : list Node -> list Node) nm a cs root' :
  editHeadChildren (ensureHeadNode (Elem nm a (Some cs))) f = Some root' ->
  HeadEdited f (Elem nm a (Some cs)) root'.
Proof.
  unfold ensureHeadNode. simpl.
  destruct (findIndex (named "head") cs) as [i |] eqn:Eh; simpl.
  - pose proof Eh as Hfirst%findIndex_named.
    destruct Hfirst as [(c & Hc & Hname) Hmin]. rewrite Hc.
    destruct c as [s | hn ha [hcs |]]; try done.
    injection Hname as ->. intros [= <-].
    apply head_existing; [| done]. apply findIndex_named, Eh.
  - apply findIndex_none_named in Eh.
    destruct (findIndex (named "body") cs) as [b |] eqn:Eb; simpl.
    + pose proof Eb as Hb%findIndex_named.
      assert (b ≤ length cs) as Hle.
      { destruct Hb as [(c & Hc & _) _]. apply lookup_lt_Some in Hc. lia. }
      rewrite lookup_middle by done. rewrite insert_middle by done.
      intros [= <-]. by apply head_before_body.
    + apply findIndex_none_named in Eb. intros [= <-]. by apply head_at_front.
Qed.

(** The edit goes through unless the head found has no [children]. *)
Lemma editHead_total (f : list Node -> list Node) nm a cs :
  (∀ c, c ∈ cs -> node_name c = Some "head" -> node_children c ≠ None) ->
  ∃ root', editHeadChildren (ensureHeadNode (Elem nm a (Some cs))) f = Some root'.
Proof.
  intros Hhead. unfold ensureHeadNode. simpl.
  destruct (findIndex (named "head") cs) as [i |] eqn:Eh; simpl.
  - apply findIndex_named in Eh as [(c & Hc & Hname) _]. rewrite Hc.
    assert (c ∈ cs) as Hin by (by eapply list_elem_of_lookup_2).
    specialize (Hhead c Hin Hname).
    destruct c as [s | hn ha [hcs |]]; try done. eauto.
  - destruct (findIndex (named "body") cs) as [b |] eqn:Eb; simpl.
    + apply findIndex_named in Eb as [(c & Hc & _) _].
      apply lookup_lt_Some in Hc.
      rewrite lookup_middle by lia. eauto.
    + eauto.
Qed.

(** A root without [children] is left as it is: the new head is not put
    in the tree. *)
Lemma editHead_detached (f : list Node -> list Node) root :
  node_children root = None ->
  editHeadChildren (ensureHeadNode root) f = Some root.
Proof.
  intros H. unfold ensureHeadNode. rewrite H. simpl.
  destruct root as [s | nm a [cs |]]; done.
Qed.

(** ** The title *)

Lemma isTitle_view n : isTitle (getNodeProps n) = true ↔ node_name n = Some "title".
Proof.
  destruct n as [s | nm a cs]; unfold isTitle, name_is; simpl; [done |].
  rewrite String.eqb_eq. split; congruence.
Qed.

Lemma hasNode_isTitle root : hasNode isTitle (INode root) = true ↔ has_title root.
Proof.
  rewrite hasNode_preorder, existsb_exists. unfold has_title, nonempty_nodes.
  split.
  - intros (n & [Hn _]%filter_In & Ht%isTitle_view).
    exists n. split; [by apply list_elem_of_In | done].
  - intros (n & Hn%list_elem_of_In & Ht). exists n. split.
    + apply filter_In. split; [done |]. by destruct n.
    + by apply isTitle_view.
Qed.

Lemma updateTitle_node_titles text n :
  Forall (λ m, node_name m = Some "title" -> node_children m = Some [Text text])
         (preorder_node (updateTitle_node text n)).
Proof.
  induction n as [s | nm a | nm a l IH] using Node_ind.
  - simpl. by repeat constructor.
  - simpl. destruct (String.eqb nm "title") eqn:E; simpl.
    + by repeat constructor.
    + apply String.eqb_neq in E. repeat constructor. intros [= ->]. done.
  - simpl. destruct (String.eqb nm "title") eqn:E; simpl.
    + by repeat constructor.
    + apply String.eqb_neq in E. constructor; [intros [= ->]; done |].
      induction IH as [| c l Hc _ IHl]; simpl; [constructor |].
      apply Forall_app. split; [exact Hc | exact IHl].
Qed.

Lemma erase_titles_updateTitle text n :
  erase_titles (updateTitle_node text n) = erase_titles n.
Proof.
  induction n as [s | nm a | nm a l IH] using Node_ind; simpl; [done | |].
  - destruct (String.eqb nm "title") eqn:E; simpl; by rewrite E.
  - destruct (String.eqb nm "title") eqn:E; simpl; rewrite E; [done |].
    do 2 f_equal. induction IH as [| c l Hc _ IHl]; simpl; [done |].
    by rewrite Hc, IHl.
Qed.

(** C7: when some node is named title, [setTitle] lets every title node
    hold the text alone and changes nothing else; when none is, it puts a
    new title node first in the children of the head, the head being the
    first child of the root named head, or else a new head put before the
    first child named body, or first when there is no body. *)
Theorem setTitle_updates_or_inserts (root : Node) (text : string) :
  let titleNode := Elem "title" (Some []) (Some [Text text]) in
  (has_title root ->
     ∃ root', setTitle root text = Some root'
       ∧ (∀ n, n ∈ preorder (INode root') -> node_name n = Some "title" ->
               node_children n = Some [Text text])
       ∧ erase_titles root' = erase_titles root)
  ∧ (¬ has_title root ->
     ∀ nm a cs, root = Elem nm a (Some cs) ->
       (∀ c, c ∈ cs -> node_name c = Some "head" -> node_children c ≠ None) ->
       ∃ root', setTitle root text = Some root'
         ∧ HeadEdited (fun hcs => titleNode :: hcs) root root').
Proof.
  intros titleNode. split.
  - intros Ht%hasNode_isTitle. unfold setTitle. rewrite Ht.
    exists (updateTitle_node text root). split; [done |]. split.
    + intros n Hn. pose proof (updateTitle_node_titles text root) as H.
      rewrite Forall_forall in H. by apply H.
    + apply erase_titles_updateTitle.
  - intros Hno nm a cs -> Hhead. unfold setTitle.
    destruct (hasNode isTitle (INode (Elem nm a (Some cs)))) eqn:E.
    { apply hasNode_isTitle in E. done. }
    destruct (editHead_total (fun hcs => titleNode :: hcs) nm a cs Hhead)
      as (root' & Hroot').
    exists root'. split; [exact Hroot' |]. by apply editHead_spec.
Qed.

(** ** Charset and viewport *)

Lemma name_is_spec key d : name_is key d = true ↔ name d = Some key.
Proof.
  unfold name_is. destruct (name d) as [nm |]; [| done].
  rewrite String.eqb_eq. split; congruence.
Qed.

Lemma attr_test_spec a key (p : string -> bool) :
  attr_test a key p = true ↔ ∃ v, a ≫= attr_get key = Some v ∧ p v = true.
Proof.
  unfold attr_test. destruct (a ≫= attr_get key) as [v |].
  - split; [by exists v | by intros (w & [= ->] & Hw)].
  - split; [done | by intros (w & [=] & _)].
Qed.

Lemma truthy_spec s : Js.truthy s = true ↔ s ≠ EmptyString.
Proof. by destruct s. Qed.

Lemma signalsCharset_spec d : signalsCharset d = true ↔ signals_charset d.
Proof.
  unfold signalsCharset, signals_charset, attr_of. rewrite <- name_is_spec.
  destruct (name_is "meta" d); simpl; [| by split; [| intros []]].
  rewrite !orb_true_iff, andb_true_iff, !attr_test_spec.
  setoid_rewrite truthy_spec. setoid_rewrite String.eqb_eq. tauto.
Qed.

Lemma isViewport_spec d : isViewport d = true ↔ is_viewport d.
Proof.
  unfold isViewport, is_viewport, attr_of.
  rewrite andb_true_iff, name_is_spec, attr_test_spec.
  setoid_rewrite String.eqb_eq. split.
  - intros [Hn (v & Hv & ->)]. done.
  - intros [Hn Hv]. split; [done |]. by exists "viewport".
Qed.

Lemma hasNode_node_child (p : NodeProps -> bool) nm a cs c :
  c ∈ cs -> hasNode_node p c = true -> hasNode_node p (Elem nm a (Some cs)) = true.
Proof.
  intros Hin Hc. simpl. apply orb_true_iff. right.
  apply existsb_exists. exists c. split; [by apply list_elem_of_In | done].
Qed.

Lemma hasNode_node_headEdited (p : NodeProps -> bool) f root root' x :
  HeadEdited f root root' ->
  (∀ hcs, x ∈ f hcs) -> hasNode_node p x = true ->
  hasNode_node p root' = true.
Proof.
  intros H Hx Hp.
  assert (∀ hn ha hcs, hasNode_node p (Elem hn ha (Some (f hcs))) = true) as Hhead.
  { intros hn ha hcs. by apply (hasNode_node_child p hn ha (f hcs) x). }
  destruct H as [nm a cs i ha hcs _ Hi | nm a cs i _ _ | nm a cs _ _].
  - eapply hasNode_node_child; [| apply (Hhead "head" ha hcs)].
    eapply list_elem_of_lookup_2. apply list_lookup_insert_eq.
    by eapply lookup_lt_Some.
  - eapply hasNode_node_child; [| apply (Hhead "head" (Some []) [])].
    apply elem_of_app. right. apply list_elem_of_here.
  - eapply hasNode_node_child; [| apply (Hhead "head" (Some []) [])].
    apply list_elem_of_here.
Qed.

Lemma fold_left_count {A} (q : A -> bool) (l : list A) (k : nat) :
  fold_left (fun count n => if q n then count + 1 else count) l k
  = k + length (List.filter q l).
Proof.
  revert k. induction l as [| x l IH]; intros k; simpl; [lia |].
  rewrite IH. destruct (q x); simpl; lia.
Qed.

Lemma filter_named_nonempty key (l : list Node) :
  List.filter (named key) (List.filter (fun n => negb (falsy n)) l)
  = List.filter (named key) l.
Proof.
  induction l as [| n l IH]; simpl; [done |].
  destruct n as [s | nm a cs]; simpl.
  - destruct (Js.truthy s); simpl; done.
  - by rewrite IH.
Qed.

Lemma countMetaTags_metas (n : Node) : countMetaTags (INode n) = metas [n].
Proof.
  unfold countMetaTags, metas. rewrite traverse_preorder.
  rewrite (fold_left_count (named "meta")). unfold nonempty_nodes.
  rewrite filter_named_nonempty. simpl. by rewrite app_nil_r.
Qed.

Lemma metas_app l1 l2 : metas (l1 ++ l2) = metas l1 + metas l2.
Proof.
  unfold metas. by rewrite flat_map_app, List.filter_app, length_app.
Qed.

Lemma metas_cons n l : metas (n :: l) = metas [n] + metas l.
Proof. apply (metas_app [n] l). Qed.

Lemma metas_elem nm a cs :
  metas [Elem nm a (Some cs)] = (if named "meta" (Elem nm a (Some cs)) then 1 else 0) + metas cs.
Proof.
  unfold metas. simpl. rewrite app_nil_r.
  by destruct (named "meta" (Elem nm a (Some cs))).
Qed.

Lemma metas_headEdited f root root' k :
  HeadEdited f root root' ->
  (∀ hcs, metas (f hcs) = metas hcs + k) ->
  metas [root'] = metas [root] + k.
Proof.
  intros H Hf.
  assert (∀ ha hcs, metas [Elem "head" ha (Some (f hcs))]
                    = metas [Elem "head" ha (Some hcs)] + k) as Hhead.
  { intros ha hcs. rewrite !metas_elem, Hf. done. }
  destruct H as [nm a cs i ha hcs _ Hi | nm a cs i _ _ | nm a cs _ _];
    rewrite !metas_elem.
  - assert (named "meta" (Elem nm a (Some (<[i:=Elem "head" ha (Some (f hcs))]> cs)))
            = named "meta" (Elem nm a (Some cs))) as -> by done.
    rewrite insert_take_drop by (by eapply lookup_lt_Some).
    assert (metas cs = metas (take i cs) + (metas [Elem "head" ha (Some hcs)]
                                            + metas (drop (S i) cs))) as ->.
    { rewrite <- (take_drop_middle cs i _ Hi) at 1.
      by rewrite metas_app, metas_cons. }
    rewrite metas_app, metas_cons, Hhead. lia.
  - assert (named "meta" (Elem nm a (Some (take i cs ++ Elem "head" (Some []) (Some (f [])) :: drop i cs)))
            = named "meta" (Elem nm a (Some cs))) as -> by done.
    assert (metas cs = metas (take i cs) + metas (drop i cs)) as ->.
    { rewrite <- (take_drop i cs) at 1. by rewrite metas_app. }
    rewrite metas_app, metas_cons, Hhead.
    assert (metas [Elem "head" (Some []) (Some [])] = 0) as -> by done. lia.
  - assert (named "meta" (Elem nm a (Some (Elem "head" (Some []) (Some (f [])) :: cs)))
            = named "meta" (Elem nm a (Some cs))) as -> by done.
    rewrite metas_cons, Hhead.
    assert (metas [Elem "head" (Some []) (Some [])] = 0) as -> by done. lia.
Qed.

(** An operation that edits the head unless the predicate already holds
    somewhere adds its node once: a second call changes nothing. *)
Lemma set_once (p : NodeProps -> bool) (f g : list Node -> list Node) x root t1 :
  (if hasNode p (INode root) then Some root
   else editHeadChildren (ensureHeadNode root) f) = Some t1 ->
  (∀ hcs, x ∈ f hcs) -> hasNode_node p x = true ->
  (∀ hcs, metas (f hcs) = metas hcs + 1) ->
  (if hasNode p (INode t1) then Some t1
   else editHeadChildren (ensureHeadNode t1) g) = Some t1
  ∧ metas [t1] ≤ metas [root] + 1.
Proof.
  intros H Hx Hp Hf. destruct (hasNode p (INode root)) eqn:E.
  - injection H as <-. rewrite E. split; [done | lia].
  - destruct root as [s | nm a [cs |]].
    + rewrite editHead_detached in H by done. injection H as <-.
      rewrite E, editHead_detached by done. split; [done | lia].
    + apply editHead_spec in H.
      assert (hasNode p (INode t1) = true) as ->.
      { simpl. by eapply hasNode_node_headEdited. }
      split; [done |]. rewrite (metas_headEdited f _ _ 1 H Hf). lia.
    + rewrite editHead_detached in H by done. injection H as <-.
      rewrite E, editHead_detached by done. split; [done | lia].
Qed.

(** C8, as amended: a view signals a charset when it is of a meta node
    with a non-empty charset attribute, or http-equiv equal to content-type
    and content containing charset, or name equal to charset, up to case;
    [setCharset] changes nothing when some node signals a charset and
    otherwise puts one meta node first in the head; after a call with a
    non-empty charset a second call changes nothing, and the two calls add
    at most one meta node.  [setViewport] changes nothing when some meta
    node has the name viewport and otherwise puts one meta node last in the
    head; a second call changes nothing, and the two calls add at most one
    meta node. *)
Theorem setCharset_setViewport_once (root : Node) (charset content : string) :
  let charsetNode := Elem "meta" (Some [("charset", charset)]) (Some []) in
  let viewportNode :=
    Elem "meta" (Some [("name", "viewport"); ("content", content)]) (Some []) in
  (∀ d, signalsCharset d = true ↔ signals_charset d)
  ∧ (hasNode signalsCharset (INode root) = true -> setCharset root charset = Some root)
  ∧ (hasNode signalsCharset (INode root) = false ->
     ∀ nm a cs, root = Elem nm a (Some cs) ->
       (∀ c, c ∈ cs -> node_name c = Some "head" -> node_children c ≠ None) ->
       ∃ root', setCharset root charset = Some root'
         ∧ HeadEdited (fun hcs => charsetNode :: hcs) root root')
  ∧ (charset ≠ EmptyString ->
     ∀ t1, setCharset root charset = Some t1 ->
       (∀ charset', setCharset t1 charset' = Some t1)
       ∧ countMetaTags (INode t1) ≤ countMetaTags (INode root) + 1)
  ∧ (∀ d, isViewport d = true ↔ is_viewport d)
  ∧ (hasNode isViewport (INode root) = true -> setViewport root content = Some root)
  ∧ (hasNode isViewport (INode root) = false ->
     ∀ nm a cs, root = Elem nm a (Some cs) ->
       (∀ c, c ∈ cs -> node_name c = Some "head" -> node_children c ≠ None) ->
       ∃ root', setViewport root content = Some root'
         ∧ HeadEdited (fun hcs => hcs ++ [viewportNode]) root root')
  ∧ (∀ t1, setViewport root content = Some t1 ->
       (∀ content', setViewport t1 content' = Some t1)
       ∧ countMetaTags (INode t1) ≤ countMetaTags (INode root) + 1).
Proof.
  intros charsetNode viewportNode.
  split; [apply signalsCharset_spec |].
  split; [intros H; unfold setCharset; by rewrite H |].
  split.
  { intros H nm a cs -> Hhead. unfold setCharset. rewrite H.
    destruct (editHead_total (fun hcs => charsetNode :: hcs) nm a cs Hhead)
      as (root' & Hroot').
    exists root'. split; [exact Hroot' |]. by apply editHead_spec. }
  split.
  { intros Hc t1 H1. rewrite !countMetaTags_metas.
    assert (hasNode_node signalsCharset charsetNode = true) as Hsig.
    { simpl. apply orb_true_iff. left. apply signalsCharset_spec.
      split; [done |]. left. by exists charset. }
    split.
    - intros charset'.
      refine (proj1 (set_once signalsCharset (fun hcs => charsetNode :: hcs) _
                       charsetNode root t1 H1 _ Hsig _)).
      + intros hcs. apply list_elem_of_here.
      + intros hcs. rewrite metas_cons. unfold metas at 1. simpl. lia.
    - refine (proj2 (set_once signalsCharset (fun hcs => charsetNode :: hcs) id
                       charsetNode root t1 H1 _ Hsig _)).
      + intros hcs. apply list_elem_of_here.
      + intros hcs. rewrite metas_cons. unfold metas at 1. simpl. lia. }
  split; [apply isViewport_spec |].
  split; [intros H; unfold setViewport; by rewrite H |].
  split.
  { intros H nm a cs -> Hhead. unfold setViewport. rewrite H.
    destruct (editHead_total (fun hcs => hcs ++ [viewportNode]) nm a cs Hhead)
      as (root' & Hroot').
    exists root'. split; [exact Hroot' |]. by apply editHead_spec. }
  intros t1 H1. rewrite !countMetaTags_metas.
  assert (hasNode_node isViewport viewportNode = true) as Hvp by done.
  split.
  - intros content'.
    refine (proj1 (set_once isViewport (fun hcs => hcs ++ [viewportNode]) _
                     viewportNode root t1 H1 _ Hvp _)).
    + intros hcs. apply elem_of_app. right. apply list_elem_of_here.
    + intros hcs. rewrite metas_app. unfold metas at 2. simpl. lia.
  - refine (proj2 (set_once isViewport (fun hcs => hcs ++ [viewportNode]) id
                     viewportNode root t1 H1 _ Hvp _)).
    + intros hcs. apply elem_of_app. right. apply list_elem_of_here.
    + intros hcs. rewrite metas_app. unfold metas at 2. simpl. lia.
Qed.

(** C8, as stated, fails twice.  A meta node with an empty charset
    attribute does not stop [setCharset] from adding a node; and two calls
    with the empty charset add two meta nodes. *)
Lemma setCharset_empty_charset :
  ¬ (∀ root charset,
       (∃ n, n ∈ preorder (INode root) ∧ node_name n = Some "meta"
             ∧ is_Some (node_attribs n ≫= attr_get "charset")) ->
       setCharset root charset = Some root)
  ∧ ¬ (∀ root charset t1 t2,
         setCharset root charset = Some t1 -> setCharset t1 charset = Some t2 ->
         countMetaTags (INode t2) ≤ countMetaTags (INode root) + 1).
Proof.
  split.
  - intros H.
    specialize (H (Elem "html" (Some [])
                     (Some [Elem "head" (Some [])
                              (Some [Elem "meta" (Some [("charset", EmptyString)])
                                          (Some [])])]))
                  "utf-8").
    assert (Hpre : ∃ n, n ∈ preorder (INode (Elem "html" (Some [])
                     (Some [Elem "head" (Some [])
                              (Some [Elem "meta" (Some [("charset", EmptyString)])
                                          (Some [])])])))
                        ∧ node_name n = Some "meta"
                        ∧ is_Some (node_attribs n ≫= attr_get "charset")).
    { exists (Elem "meta" (Some [("charset", EmptyString)]) (Some [])).
      split; [| split; [done | by eexists]].
      apply list_elem_of_In. vm_compute. tauto. }
    specialize (H Hpre). vm_compute in H. discriminate.
  - intros H.
    specialize (H (Elem "html" (Some []) (Some [Elem "head" (Some []) (Some [])]))
                  EmptyString _ _ eq_refl eq_refl).
    vm_compute in H. lia.
Qed.

(** ** What the mutations leave alone *)

Lemma labels_elem nm a cs :
  labels (Elem nm a (Some cs)) = (nm, a) :: List.flat_map labels cs.
Proof. done. Qed.

Lemma sublist_flat_map_insert (f : list Node -> list Node) cs i ha hcs :
  cs !! i = Some (Elem "head" ha (Some hcs)) ->
  List.flat_map labels hcs `sublist_of` List.flat_map labels (f hcs) ->
  List.flat_map labels cs
  `sublist_of` List.flat_map labels (<[i := Elem "head" ha (Some (f hcs))]> cs).
Proof.
  intros Hi Hf. rewrite insert_take_drop by (by eapply lookup_lt_Some).
  rewrite <- (take_drop_middle cs i _ Hi) at 1.
  rewrite !flat_map_app. simpl.
  apply sublist_app; [done |]. apply sublist_skip. by apply sublist_app.
Qed.

Lemma headEdited_grown f root root' :
  HeadEdited f root root' ->
  (∀ hcs, List.flat_map labels hcs `sublist_of` List.flat_map labels (f hcs)) ->
  Grown root root'.
Proof.
  intros H Hf. split; [by destruct H |].
  destruct H as [nm a cs i ha hcs _ Hi | nm a cs i _ _ | nm a cs _ _];
    rewrite !labels_elem; apply sublist_skip.
  - by apply sublist_flat_map_insert.
  - rewrite <- (take_drop i cs) at 1. rewrite !flat_map_app.
    apply sublist_app; [done |]. simpl.
    apply sublist_cons. by apply sublist_inserts_l.
  - simpl. apply sublist_cons. by apply sublist_inserts_l.
Qed.

Lemma grown_refl root : Grown root root.
Proof. by split. Qed.

Lemma editHead_grown f root root' :
  editHeadChildren (ensureHeadNode root) f = Some root' ->
  (∀ hcs, List.flat_map labels hcs `sublist_of` List.flat_map labels (f hcs)) ->
  Grown root root'.
Proof.
  intros H Hf. destruct root as [s | nm a [cs |]].
  - rewrite editHead_detached in H by done. injection H as <-. apply grown_refl.
  - eapply headEdited_grown; [by apply editHead_spec | done].
  - rewrite editHead_detached in H by done. injection H as <-. apply grown_refl.
Qed.

Lemma ensureHeadNode_grown root : Grown root (fst (ensureHeadNode root)).
Proof.
  unfold ensureHeadNode.
  destruct (node_children root ≫= findIndex (named "head")); [apply grown_refl |].
  destruct root as [s | nm a [cs |]]; try apply grown_refl.
  simpl. split; [done |]. rewrite !labels_elem. apply sublist_skip.
  set (i := default 0 (findIndex (named "body") cs)).
  rewrite <- (take_drop i cs) at 1. rewrite !flat_map_app.
  apply sublist_app; [done |]. simpl. by apply sublist_cons.
Qed.

Lemma removeNodes_node_shrunk predicate root :
  Shrunk root (removeNodes_node predicate root).
Proof.
  split; [by destruct root as [s | nm a [cs |]] |].
  induction root as [s | nm a | nm a l IH] using Node_ind; [done | done |].
  rewrite removeNodes_node_children, !labels_elem. apply sublist_skip.
  induction IH as [| c l Hc _ IHl]; simpl; [done |].
  destruct (predicate (getNodeProps c)); simpl.
  - by apply sublist_inserts_l.
  - by apply sublist_app.
Qed.

Lemma updateTitle_node_shrunk text root :
  Shrunk root (updateTitle_node text root).
Proof.
  split.
  { destruct root as [s | nm a [cs |]]; simpl; try done;
      by destruct (String.eqb nm "title"). }
  induction root as [s | nm a | nm a l IH] using Node_ind; simpl; [done | |].
  - destruct (String.eqb nm "title"); simpl; done.
  - destruct (String.eqb nm "title"); simpl; apply sublist_skip.
    + apply sublist_nil_l.
    + induction IH as [| c l Hc _ IHl]; simpl; [done |]. by apply sublist_app.
Qed.

(** C10: no mutation changes the name or the attribs of a node that stays
    in the tree, the root included.  [ensureHeadNode], [setCharset],
    [setViewport], [insertLink] and [insertInlineScript] only put nodes in;
    [removeNodes] only takes nodes out; [setTitle] takes out what the title
    nodes held, or puts nodes in. *)
Theorem mutations_keep_names_and_attribs (root : Node) :
  Grown root (fst (ensureHeadNode root))
  ∧ (∀ text root', setTitle root text = Some root' ->
       Shrunk root root' ∨ Grown root root')
  ∧ (∀ charset root', setCharset root charset = Some root' -> Grown root root')
  ∧ (∀ content root', setViewport root content = Some root' -> Grown root root')
  ∧ (∀ href rel extra root', insertLink root href rel extra = Some root' ->
       Grown root root')
  ∧ (∀ text root', insertInlineScript root text = Some root' -> Grown root root')
  ∧ (∀ predicate, Shrunk root (removeNodes_node predicate root)).
Proof.
  split; [apply ensureHeadNode_grown |].
  split.
  { intros text root'. unfold setTitle.
    destruct (hasNode isTitle (INode root)).
    - intros [= <-]. left. apply updateTitle_node_shrunk.
    - intros H. right. eapply editHead_grown; [exact H |].
      intros hcs. simpl. by apply sublist_cons. }
  split.
  { intros c root'. unfold setCharset.
    destruct (hasNode signalsCharset (INode root)).
    - intros [= <-]. apply grown_refl.
    - intros H. eapply editHead_grown; [exact H |].
      intros hcs. simpl. by apply sublist_cons. }
  split.
  { intros c root'. unfold setViewport.
    destruct (hasNode isViewport (INode root)).
    - intros [= <-]. apply grown_refl.
    - intros H. eapply editHead_grown; [exact H |].
      intros hcs. cbv beta. rewrite flat_map_app. by apply sublist_inserts_r. }
  split.
  { intros href rel extra root' H. eapply editHead_grown; [exact H |].
    intros hcs. cbv beta. rewrite flat_map_app. by apply sublist_inserts_r. }
  split.
  { intros text root' H. eapply editHead_grown; [exact H |].
    intros hcs. cbv beta. rewrite flat_map_app. by apply sublist_inserts_r. }
  intros predicate. apply removeNodes_node_shrunk.
Qed.

(** ** The round trip *)

Lemma nodeToJson_element ty nm a cs :
  nodeToJson (RawElement ty nm a cs)
  = Some (Elem nm (Some (default [] a))
               (Some (filterBoolean (map nodeToJson (default [] cs))))).
Proof. by destruct cs. Qed.

Lemma append_assoc (s t u : string) : (s +:+ t) +:+ u = s +:+ t +:+ u.
Proof.
  induction s as [| c s IH]; [done |].
  change (String c ((s +:+ t) +:+ u) = String c (s +:+ t +:+ u)). by rewrite IH.
Qed.

Lemma jsonToHtml_void nm (a : Attribs) :
  includes_str SELF_CLOSING_TAGS nm = true -> a ≠ [] ->
  jsonToHtml (Elem nm (Some a) (Some []))
  = "<" +:+ nm +:+ " " +:+ pairs_text a +:+ " />".
Proof.
  intros Hv Ha. rewrite jsonToHtml_Elem. cbv zeta. simpl default.
  rewrite Hv, attrStr_pairs_text. simpl.
  rewrite <- attrStr_pairs_text. by apply attrStr_truthy in Ha as ->.
Qed.

Lemma jsonToHtml_open nm (a : Attribs) cs :
  includes_str SELF_CLOSING_TAGS nm && Nat.eqb (length cs) 0 = false ->
  jsonToHtml (Elem nm (Some a) (Some cs))
  = (match a with
     | [] => "<" +:+ nm +:+ ">"
     | _ :: _ => "<" +:+ nm +:+ " " +:+ pairs_text a +:+ ">"
     end)
    +:+ foldr String.append EmptyString (map jsonToHtml cs)
    +:+ "</" +:+ nm +:+ ">".
Proof.
  intros Hv. rewrite jsonToHtml_Elem. cbv zeta. simpl default.
  rewrite Hv, join_empty_sep. destruct a as [| kv a]; [done |].
  assert (Js.truthy (Js.join " " (map attr_entry (kv :: a))) = true) as ->
    by by apply attrStr_truthy.
  by rewrite attrStr_pairs_text.
Qed.

Lemma jsonToHtml_createHtmlDocument title options :
  jsonToHtml (createHtmlDocument title options)
  = skeleton_text (given_lang options)
      (default "utf-8" (charset options))
      (default "width=device-width, initial-scale=1.0" (viewport options))
      title.
Proof.
  unfold createHtmlDocument, skeleton_text, given_lang.
  set (c := default "utf-8" (charset options)).
  set (v := default "width=device-width, initial-scale=1.0" (viewport options)).
  clearbody c v.
  rewrite (jsonToHtml_open "html") by done. cbn [map foldr].
  rewrite (jsonToHtml_open "head"), (jsonToHtml_open "body") by done. cbn [map foldr].
  rewrite !(jsonToHtml_void "meta"), (jsonToHtml_open "title") by done.
  cbn [map foldr pairs_text jsonToHtml].
  destruct (lang options) as [l |]; [destruct (Js.truthy l) |];
    cbn [pairs_text]; rewrite ?append_assoc; reflexivity.
Qed.

Lemma strip_prefix_app p s : strip_prefix p (p +:+ s) = Some s.
Proof.
  induction p as [| c p IH]; [done |].
  change (strip_prefix (String c p) (String c (p +:+ s)) = Some s).
  simpl. by rewrite Ascii.eqb_refl.
Qed.

Lemma read_until_app stop v rest :
  lacks stop v = true -> read_until stop (v +:+ String stop rest) = Some (v, rest).
Proof.
  induction v as [| c v IH]; intros Hv.
  - change (read_until stop (String stop rest) = Some (EmptyString, rest)).
    simpl. by rewrite Ascii.eqb_refl.
  - change (read_until stop (String c (v +:+ String stop rest))
            = Some (String c v, rest)).
    simpl in Hv. apply andb_prop in Hv as [Hc Hv]. apply negb_true_iff in Hc.
    simpl. by rewrite Hc, IH.
Qed.

Lemma read_write_pieces ps vs :
  fits ps vs = true -> read_pieces ps (write_pieces ps vs) = Some vs.
Proof.
  revert vs. induction ps as [| [p | stop] ps IH]; intros vs Hfit.
  - by destruct vs.
  - simpl in *. by rewrite strip_prefix_app, IH.
  - destruct vs as [| v vs]; [done |]. simpl in *.
    apply andb_prop in Hfit as [Hv Hfit]. by rewrite read_until_app, IH.
Qed.

Lemma read_skeleton_reads : reads_skeletons read_skeleton.
Proof.
  intros lang c v t Hlang [Hc _]%andb_prop [Hv _]%andb_prop [Ht _]%andb_prop.
  exists [], []. split; [| constructor].
  unfold read_skeleton. cbn [dom_children app].
  destruct lang as [l |].
  - apply andb_prop in Hlang as [Hl _].
    change (skeleton_text (Some l) c v t)
      with (write_pieces (skeleton_pieces true) [l; c; v; t]).
    rewrite read_write_pieces; [done |].
    cbn [fits skeleton_pieces app]. by rewrite Hl, Hc, Hv, Ht.
  - assert (read_pieces (skeleton_pieces true) (skeleton_text None c v t) = None)
      as -> by done.
    change (skeleton_text None c v t)
      with (write_pieces (skeleton_pieces false) [c; v; t]).
    rewrite read_write_pieces; [done |].
    cbn [fits skeleton_pieces app]. by rewrite Hc, Hv, Ht.
Qed.



(** ** The theorems at concrete inputs *)

(** A fragment without an html element gives null; a document with a
    doctype and an html element gives the tree of the element. *)
Lemma htmlToJson_canonical_witness :
  htmlToJson
    (fun _ => {| dom_children := [RawElement Tag "div" None (Some [RawText "test"])] |})
    "<div>test</div>" = None
  ∧ ∃ nm a kids,
      htmlToJson
        (fun _ =>
           {| dom_children :=
                [ RawOther Directive [];
                  RawElement Tag "html" None
                    (Some [ RawElement Tag "head" None (Some [RawText "   "]);
                            RawElement Tag "body" None (Some [RawText "x"]) ]) ] |})
        "<!DOCTYPE html><html><head>   </head><body>x</body></html>"
      = Some (Elem nm (Some a) (Some kids))
      ∧ Canonical
          (RawElement Tag "html" None
             (Some [ RawElement Tag "head" None (Some [RawText "   "]);
                     RawElement Tag "body" None (Some [RawText "x"]) ]))
          (Some (Elem nm (Some a) (Some kids))).
Proof.
  split.
  - apply (proj1 (htmlToJson_canonical
                    (fun _ => {| dom_children :=
                                   [RawElement Tag "div" None (Some [RawText "test"])] |})
                    "<div>test</div>")).
    simpl. constructor; [discriminate | constructor].
  - apply (proj1 (proj2 (htmlToJson_canonical
                    (fun _ =>
                       {| dom_children :=
                            [ RawOther Directive [];
                              RawElement Tag "html" None
                                (Some [ RawElement Tag "head" None (Some [RawText "   "]);
                                        RawElement Tag "body" None (Some [RawText "x"]) ]) ] |})
                    "<!DOCTYPE html><html><head>   </head><body>x</body></html>"))
             [RawOther Directive []] _ []).
    + reflexivity.
    + constructor; [discriminate | constructor].
    + reflexivity.
Defined.

(** Void elements without children, with no, one and two attributes; an
    element that is not void, with an attribute and without children; and a
    void element with a child. *)
Lemma jsonToHtml_element_witness :
  jsonToHtml (Elem "br" (Some []) (Some [])) = "<br />"
  ∧ jsonToHtml (Elem "meta" (Some [("charset", "utf-8")]) (Some []))
    = "<meta charset=" +:+ quote_mark +:+ "utf-8" +:+ quote_mark +:+ " />"
  ∧ jsonToHtml (Elem "source" (Some [("src", "a.ogg"); ("type", "audio/ogg")]) None)
    = "<source src=" +:+ quote_mark +:+ "a.ogg" +:+ quote_mark
      +:+ " type=" +:+ quote_mark +:+ "audio/ogg" +:+ quote_mark +:+ " />"
  ∧ jsonToHtml (Elem "div" None (Some [Text "content"])) = "<div>content</div>"
  ∧ jsonToHtml (Elem "p" (Some [("class", "x")]) (Some []))
    = "<p class=" +:+ quote_mark +:+ "x" +:+ quote_mark +:+ "></p>"
  ∧ jsonToHtml (Elem "br" None (Some [Text "x"])) = "<br>x</br>".
Proof.
  split; [| split; [| split; [| split; [| split]]]].
  - apply (proj1 (jsonToHtml_element "br" (Some []) (Some []))).
    + apply includes_str_spec. reflexivity.
    + reflexivity.
    + reflexivity.
  - apply (proj1 (jsonToHtml_element "meta" (Some [("charset", "utf-8")]) (Some []))).
    + apply includes_str_spec. reflexivity.
    + reflexivity.
    + discriminate.
  - apply (proj1 (jsonToHtml_element "source"
                    (Some [("src", "a.ogg"); ("type", "audio/ogg")]) None)).
    + apply includes_str_spec. reflexivity.
    + reflexivity.
    + discriminate.
  - apply (proj2 (jsonToHtml_element "div" None (Some [Text "content"]))).
    intros [_ H]. discriminate H.
  - apply (proj2 (jsonToHtml_element "p" (Some [("class", "x")]) (Some []))).
    intros [H%includes_str_spec _]. discriminate H.
  - apply (proj2 (jsonToHtml_element "br" None (Some [Text "x"]))).
    intros [_ H]. discriminate H.
Defined.


(** The title of the skeleton is found. *)
Lemma hasNode_iff_visited_witness :
  hasNode isTitle (INode (createHtmlDocument "t" (mkOptions None None None))) = true.
Proof.
  apply (proj1 (hasNode_iff_visited isTitle
                  (INode (createHtmlDocument "t" (mkOptions None None None))))).
  exists (Elem "title" (Some []) (Some [Text "t"])). split; [| reflexivity].
  apply list_elem_of_In. vm_compute. tauto.
Defined.


(** A document with a title, and a document with a body alone. *)
Lemma setTitle_updates_or_inserts_witness :
  (∃ root',
     setTitle (createHtmlDocument "t" (mkOptions None None None)) "New Title"
     = Some root'
     ∧ (∀ n, n ∈ preorder (INode root') -> node_name n = Some "title" ->
             node_children n = Some [Text "New Title"])
     ∧ erase_titles root'
       = erase_titles (createHtmlDocument "t" (mkOptions None None None)))
  ∧ ∃ root',
      setTitle (Elem "html" (Some []) (Some [Elem "body" (Some []) (Some [])]))
               "New Title"
      = Some root'
      ∧ HeadEdited
          (fun hcs => Elem "title" (Some []) (Some [Text "New Title"]) :: hcs)
          (Elem "html" (Some []) (Some [Elem "body" (Some []) (Some [])])) root'.
Proof.
  split.
  - apply (proj1 (setTitle_updates_or_inserts
                    (createHtmlDocument "t" (mkOptions None None None)) "New Title")).
    exists (Elem "title" (Some []) (Some [Text "t"])). split; [| reflexivity].
    apply list_elem_of_In. vm_compute. tauto.
  - apply (proj2 (setTitle_updates_or_inserts
                    (Elem "html" (Some []) (Some [Elem "body" (Some []) (Some [])]))
                    "New Title")
             ltac:(intros (n & Hn%list_elem_of_In & Hname);
                   simpl in Hn; destruct Hn as [<- | [<- | []]]; discriminate)
             "html" (Some []) [Elem "body" (Some []) (Some [])] eq_refl).
    intros c Hc%list_elem_of_In Hname.
    simpl in Hc. destruct Hc as [<- | []]. discriminate.
Defined.

(** A document with an empty head: the first call adds the node, a second
    call changes nothing; and a document that already signals a charset. *)
Lemma setCharset_setViewport_once_witness :
  (∀ t1,
     setCharset (Elem "html" (Some []) (Some [Elem "head" (Some []) (Some [])])) "utf-8"
     = Some t1 ->
     (∀ charset', setCharset t1 charset' = Some t1)
     ∧ countMetaTags (INode t1)
       ≤ countMetaTags
           (INode (Elem "html" (Some []) (Some [Elem "head" (Some []) (Some [])]))) + 1)
  ∧ setCharset (createHtmlDocument "t" (mkOptions None None None)) "utf-8"
    = Some (createHtmlDocument "t" (mkOptions None None None))
  ∧ setViewport (createHtmlDocument "t" (mkOptions None None None)) "width=320"
    = Some (createHtmlDocument "t" (mkOptions None None None)).
Proof.
  split; [| split].
  - apply (proj1 (proj2 (proj2 (proj2
             (setCharset_setViewport_once
                (Elem "html" (Some []) (Some [Elem "head" (Some []) (Some [])]))
                "utf-8" "width=320"))))).
    discriminate.
  - apply (proj1 (proj2
             (setCharset_setViewport_once
                (createHtmlDocument "t" (mkOptions None None None))
                "utf-8" "width=320"))).
    reflexivity.
  - apply (proj1 (proj2 (proj2 (proj2 (proj2 (proj2
             (setCharset_setViewport_once
                (createHtmlDocument "t" (mkOptions None None None))
                "utf-8" "width=320"))))))).
    reflexivity.
Defined.

(** A link put in a document with a body alone. *)
Lemma mutations_keep_names_and_attribs_witness :
  Grown (Elem "html" (Some []) (Some [Elem "body" (Some []) (Some [])]))
        (Elem "html" (Some [])
           (Some [ Elem "head" (Some [])
                     (Some [Elem "link"
                              (Some [("rel", "stylesheet"); ("href", "/style.css")])
                              (Some [])]);
                   Elem "body" (Some []) (Some []) ])).
Proof.
  apply (proj1 (proj2 (proj2 (proj2 (proj2
           (mutations_keep_names_and_attribs
              (Elem "html" (Some []) (Some [Elem "body" (Some []) (Some [])])))))))
           "/style.css" "stylesheet" []).
  reflexivity.
Defined.


(** * Further properties *)

(** ** Trees that come from the adapter *)

Lemma filterBoolean_canonical (l : list RawNode) :
  Forall (λ r, ∀ T, nodeToJson r = Some T -> isCanonical T = true) l ->
  forallb isCanonical (filterBoolean (map nodeToJson l)) = true.
Proof.
  induction 1 as [| r l Hr _ IH]; [done |].
  change (map nodeToJson (r :: l)) with (nodeToJson r :: map nodeToJson l).
  rewrite filterBoolean_cons. destruct (nodeToJson r) as [T |] eqn:E; [| done].
  simpl. by rewrite (Hr T eq_refl), IH.
Qed.

Lemma nodeToJson_keeps_invariants (r : RawNode) (T : Node) :
  nodeToJson r = Some T -> isCanonical T = true.
Proof.
  revert T. induction r as [data | ty nm a | ty nm a l IH | ty l] using RawNode_ind;
    intros T; simpl.
  - rewrite truthy_trim. destruct (Js.blank data) eqn:B; simpl; [done |].
    intros [= <-]. simpl. by rewrite B.
  - by intros [= <-].
  - intros [= <-]. simpl. by apply filterBoolean_canonical.
  - done.
Qed.

(** X2: the tree [htmlToJson] returns, when it returns one, is an element
    named html that keeps the invariants of the codec. *)
Theorem htmlToJson_root_is_html
    (parseDocument : string -> Document) (html : string) (T : Node) :
  htmlToJson parseDocument html = Some T ->
  (∃ a cs, T = Elem "html" (Some a) (Some cs)) ∧ isCanonical T = true.
Proof.
  unfold htmlToJson.
  destruct (List.find _ (dom_children (parseDocument html))) as [r |] eqn:E;
    [| done].
  apply List.find_some in E as [_ Hname]. intros HT. split.
  - destruct r as [data | ty nm a cs | ty l]; try done.
    simpl in Hname. apply String.eqb_eq in Hname as ->.
    rewrite nodeToJson_element in HT. injection HT as <-. eauto.
  - by apply (nodeToJson_keeps_invariants r).
Qed.

Lemma htmlToJson_root_is_html_witness :
  (∃ a cs, Elem "html" (Some [("lang", "en")]) (Some []) = Elem "html" (Some a) (Some cs))
  ∧ isCanonical (Elem "html" (Some [("lang", "en")]) (Some [])) = true.
Proof.
  apply (htmlToJson_root_is_html
           (fun _ => {| dom_children :=
                          [ RawText " ";
                            RawElement Tag "html" (Some [("lang", "en")]) None ] |})
           "<html lang=en>").
  reflexivity.
Defined.

Lemma canonical_nonempty (T : Node) :
  isCanonical T = true -> Forall (λ n, falsy n = false) (preorder_node T).
Proof.
  induction T as [s | nm a | nm a l IH] using Node_ind; simpl.
  - intros H. constructor; [| constructor]. simpl. by destruct s.
  - intros _. by repeat constructor.
  - intros H. constructor; [done |]. destruct a as [a |]; [| done].
    induction IH as [| c l Hc _ IHl]; simpl; [constructor |].
    simpl in H. apply andb_prop in H as [H1 H2].
    apply Forall_app. split; [by apply Hc | by apply IHl].
Qed.

Lemma filter_all {A} (q : A -> bool) (l : list A) :
  Forall (λ x, q x = true) l -> List.filter q l = l.
Proof.
  induction 1 as [| x l Hx _ IH]; simpl; [done |]. by rewrite Hx, IH.
Qed.

Lemma canonical_nonempty_nodes (T : Node) :
  isCanonical T = true -> nonempty_nodes (INode T) = preorder (INode T).
Proof.
  intros H. unfold nonempty_nodes. apply filter_all.
  eapply Forall_impl; [by apply canonical_nonempty |].
  intros n Hn. simpl in Hn. by rewrite Hn.
Qed.

Lemma canonical_complete (T : Node) : isCanonical T = true -> isComplete T = true.
Proof.
  induction T as [s | nm a | nm a l IH] using Node_ind; [done | done |].
  destruct a as [a |]; [| done]. simpl.
  induction IH as [| c l Hc _ IHl]; simpl; [done |].
  intros [H1 H2]%andb_prop. by rewrite Hc, IHl.
Qed.

(** X1: whatever [nodeToJson] returns keeps the invariants of the codec at
    every depth: each element has attribs and children, no string is blank,
    and so no node of the tree is the empty string. *)
Theorem nodeToJson_isCanonical (r : RawNode) (T : Node) :
  nodeToJson r = Some T ->
  isCanonical T = true
  ∧ isComplete T = true
  ∧ ∀ n, n ∈ preorder (INode T) -> falsy n = false.
Proof.
  intros H%nodeToJson_keeps_invariants.
  split; [done |]. split; [by apply canonical_complete |].
  intros n Hn. pose proof (canonical_nonempty T H) as Hall.
  rewrite Forall_forall in Hall. by apply Hall.
Qed.

Lemma nodeToJson_isCanonical_witness :
  isCanonical
    (Elem "html" (Some [])
       (Some [Elem "body" (Some []) (Some [Text "x"])])) = true
  ∧ isComplete
      (Elem "html" (Some [])
         (Some [Elem "body" (Some []) (Some [Text "x"])])) = true
  ∧ ∀ n, n ∈ preorder (INode (Elem "html" (Some [])
                                (Some [Elem "body" (Some []) (Some [Text "x"])]))) ->
         falsy n = false.
Proof.
  apply (nodeToJson_isCanonical
           (RawElement Tag "html" None
              (Some [ RawText "  "; RawOther Comment [];
                      RawElement Tag "body" None (Some [RawText "x"]) ]))).
  reflexivity.
Defined.

(** X3: on a tree that [nodeToJson] returned, [traverse] calls the callback
    on every node of the tree, and [hasNode] is true exactly when the
    predicate holds of the view of some node of the tree. *)
Theorem traverse_parsed_visits_all (r : RawNode) (T : Node) :
  nodeToJson r = Some T ->
  visits (INode T) = preorder (INode T)
  ∧ ∀ predicate,
      hasNode predicate (INode T) = true ↔
      ∃ n, n ∈ preorder (INode T) ∧ predicate (getNodeProps n) = true.
Proof.
  intros H%nodeToJson_keeps_invariants. apply canonical_nonempty_nodes in H.
  split; [by rewrite visits_nonempty_nodes |].
  intros predicate. rewrite hasNode_preorder, H, existsb_exists.
  split; intros (n & Hn & Hp); exists n; split; try done; by apply list_elem_of_In.
Qed.

Lemma traverse_parsed_visits_all_witness :
  visits (INode (Elem "html" (Some []) (Some [Elem "title" (Some []) (Some [Text "t"])])))
  = preorder (INode (Elem "html" (Some []) (Some [Elem "title" (Some []) (Some [Text "t"])]))).
Proof.
  apply (traverse_parsed_visits_all
           (RawElement Tag "html" None
              (Some [RawElement Tag "title" None (Some [RawText "t"])]))).
  reflexivity.
Defined.

(** X4: [nodeToJson] undoes mirroring: of a raw node that mirrors a tree
    keeping the invariants of the codec it returns that tree. *)
Theorem nodeToJson_of_mirror (r : RawNode) (T : Node) :
  Mirrors r T -> isCanonical T = true -> nodeToJson r = Some T.
Proof.
  revert r. induction T as [s | nm a | nm a l IH] using Node_ind; intros r Hm Hc.
  - inversion Hm; subst. simpl in *. rewrite truthy_trim.
    by destruct (Js.blank s).
  - inversion Hm.
  - inversion Hm as [| ty nm' a' rcs cs Hcs]; subst.
    rewrite nodeToJson_element. do 3 f_equal. simpl in Hc.
    change (default [] (Some rcs)) with rcs.
    clear Hm. revert rcs Hcs Hc. induction IH as [| c l Hcan _ IHl]; intros rcs Hcs Hc.
    + by inversion Hcs.
    + simpl in Hc. apply andb_prop in Hc as [Hc1 Hc2].
      inversion Hcs as [| r0 rs c0 cs0 Hr0 Hrs | rs cs0 Hrs]; subst.
      * change (map nodeToJson (r0 :: rs)) with (nodeToJson r0 :: map nodeToJson rs).
        rewrite filterBoolean_cons, (Hcan r0 Hr0 Hc1). f_equal. by apply IHl.
      * done.
Qed.

Lemma nodeToJson_of_mirror_witness :
  nodeToJson (RawElement Script "script" (Some [("src", "/app.js")]) (Some []))
  = Some (Elem "script" (Some [("src", "/app.js")]) (Some [])).
Proof.
  apply nodeToJson_of_mirror; [| reflexivity].
  repeat constructor.
Defined.

(** ** The head, once more *)

Lemma editHead_eq (f : list Node -> list Node) nm a cs :
  editHeadChildren (ensureHeadNode (Elem nm a (Some cs))) f
  = match findIndex (named "head") cs with
    | Some i =>
        match cs !! i with
        | Some (Elem hn ha (Some hcs)) =>
            Some (Elem nm a (Some (<[i := Elem hn ha (Some (f hcs))]> cs)))
        | _ => None
        end
    | None =>
        let b := default 0 (findIndex (named "body") cs) in
        Some (Elem nm a
                (Some (take b cs ++ Elem "head" (Some []) (Some (f [])) :: drop b cs)))
    end.
Proof.
  unfold ensureHeadNode. simpl.
  destruct (findIndex (named "head") cs) as [i |] eqn:Eh; simpl; [done |].
  assert (default 0 (findIndex (named "body") cs) ≤ length cs) as Hb.
  { destruct (findIndex (named "body") cs) as [b |] eqn:Eb; simpl; [| lia].
    apply findIndex_Some in Eb as [(c & Hc & _) _].
    apply lookup_lt_Some in Hc. lia. }
  rewrite lookup_middle by done. by rewrite insert_middle.
Qed.

Lemma findIndex_insert {A} (p : A -> bool) (l : list A) i x y :
  l !! i = Some x -> p y = p x -> findIndex p (<[i := y]> l) = findIndex p l.
Proof.
  revert i. induction l as [| z l IH]; intros i Hi Hp; [done |].
  destruct i as [| i]; simpl in *.
  - injection Hi as ->. by rewrite Hp.
  - by rewrite (IH i).
Qed.

Lemma findIndex_middle {A} (p : A -> bool) (l : list A) b x :
  b ≤ length l -> Forall (λ y, p y = false) l -> p x = true ->
  findIndex p (take b l ++ x :: drop b l) = Some b.
Proof.
  revert b. induction l as [| z l IH]; intros b Hb Hl Hx.
  - simpl in Hb. replace b with 0 by lia. simpl. by rewrite Hx.
  - inversion Hl as [| ? ? Hz Hl']; subst. destruct b as [| b]; simpl.
    + by rewrite Hx.
    + rewrite Hz, IH; [done | simpl in Hb; lia | done | done].
Qed.

Lemma body_index_le cs : default 0 (findIndex (named "body") cs) ≤ length cs.
Proof.
  destruct (findIndex (named "body") cs) as [b |] eqn:Eb; simpl; [| lia].
  apply findIndex_Some in Eb as [(c & Hc & _) _].
  apply lookup_lt_Some in Hc. lia.
Qed.

Lemma ensureHeadNode_eq nm a cs :
  ensureHeadNode (Elem nm a (Some cs))
  = match findIndex (named "head") cs with
    | Some i => (Elem nm a (Some cs), InTree i)
    | None =>
        let b := default 0 (findIndex (named "body") cs) in
        (Elem nm a (Some (take b cs ++ Elem "head" (Some []) (Some []) :: drop b cs)),
         InTree b)
    end.
Proof.
  unfold ensureHeadNode. simpl. by destruct (findIndex (named "head") cs).
Qed.

(** X5: [ensureHeadNode] called on its own result finds the head it
    returned and changes nothing more; on a root with children its result
    has a child named head, and the node returned is the first such. *)
Theorem ensureHeadNode_idempotent (root : Node) :
  ensureHeadNode (fst (ensureHeadNode root)) = ensureHeadNode root
  ∧ (∀ nm a cs, root = Elem nm a (Some cs) ->
       ∃ i cs', ensureHeadNode root = (Elem nm a (Some cs'), InTree i)
                ∧ first_named "head" cs' i
                ∧ length cs ≤ length cs').
Proof.
  destruct root as [s | nm a [cs |]]; try by (split; [done | intros ? ? ? [=]]).
  rewrite ensureHeadNode_eq.
  destruct (findIndex (named "head") cs) as [i |] eqn:Eh; cbv zeta.
  - split.
    + simpl. by rewrite ensureHeadNode_eq, Eh.
    + intros ? ? ? [= <- <- <-]. exists i, cs.
      split; [done |]. split; [by apply findIndex_named | done].
  - assert (findIndex (named "head")
              (take (default 0 (findIndex (named "body") cs)) cs
               ++ Elem "head" (Some []) (Some [])
               :: drop (default 0 (findIndex (named "body") cs)) cs)
            = Some (default 0 (findIndex (named "body") cs))) as Hfound.
    { apply findIndex_middle; [apply body_index_le | | done].
      by apply findIndex_None. }
    split.
    + simpl. by rewrite ensureHeadNode_eq, Hfound.
    + intros ? ? ? [= <- <- <-]. eexists _, _. split; [done |].
      split; [by apply findIndex_named |].
      rewrite length_app, length_cons, length_take, length_drop. lia.
Qed.

Lemma ensureHeadNode_idempotent_witness :
  ∃ i cs',
    ensureHeadNode (Elem "html" (Some []) (Some [Text "x"; Elem "body" None None]))
    = (Elem "html" (Some []) (Some cs'), InTree i)
    ∧ first_named "head" cs' i
    ∧ length [Text "x"; Elem "body" None None] ≤ length cs'.
Proof.
  apply (proj2 (ensureHeadNode_idempotent
                  (Elem "html" (Some []) (Some [Text "x"; Elem "body" None None])))).
  reflexivity.
Defined.

Lemma editHead_none_iff (f : list Node -> list Node) (root : Node) :
  editHeadChildren (ensureHeadNode root) f = None ↔ head_without_children root.
Proof.
  unfold head_without_children. destruct root as [s | nm a [cs |]].
  - rewrite editHead_detached by done.
    split; [done | by intros (? & ? & ? & ? & ? & [=] & _)].
  - rewrite editHead_eq.
    destruct (findIndex (named "head") cs) as [i |] eqn:Eh.
    + pose proof Eh as Hfirst%findIndex_named.
      destruct Hfirst as [(c & Hc & Hname) Hmin]. rewrite Hc. split.
      * intros H. exists nm, a, cs, i, c.
        split; [done |]. split; [by apply findIndex_named |]. split; [done |].
        by destruct c as [s | hn ha [hcs |]].
      * intros (? & ? & ? & j & c' & [= <- <- <-] & Hj%findIndex_named & Hc' & Hnone).
        rewrite Eh in Hj. injection Hj as <-. rewrite Hc in Hc'.
        injection Hc' as <-. by destruct c as [s | hn ha [hcs |]].
    + split; [done |].
      intros (? & ? & ? & j & c' & [= <- <- <-] & Hj%findIndex_named & _).
      congruence.
  - rewrite editHead_detached by done.
    split; [done | by intros (? & ? & ? & ? & ? & [=] & _)].
Qed.

(** X6: an operation that edits the head fails exactly when the first child
    of the root named head has no [children], and only if it gets as far as
    the head; on a root without [children] the inserting operations succeed
    and leave the root as it is. *)
Theorem head_edit_fails_iff (root : Node) :
  (∀ href rel extra, insertLink root href rel extra = None ↔ head_without_children root)
  ∧ (∀ text, insertInlineScript root text = None ↔ head_without_children root)
  ∧ (∀ text, setTitle root text = None ↔
             hasNode isTitle (INode root) = false ∧ head_without_children root)
  ∧ (∀ charset, setCharset root charset = None ↔
                hasNode signalsCharset (INode root) = false
                ∧ head_without_children root)
  ∧ (∀ content, setViewport root content = None ↔
                hasNode isViewport (INode root) = false ∧ head_without_children root)
  ∧ (node_children root = None ->
     (∀ href rel extra, insertLink root href rel extra = Some root)
     ∧ (∀ text, insertInlineScript root text = Some root)).
Proof.
  split; [intros; apply editHead_none_iff |].
  split; [intros; apply editHead_none_iff |].
  split.
  { intros text. unfold setTitle. destruct (hasNode isTitle (INode root)).
    - split; [done | by intros [[=] _]].
    - rewrite editHead_none_iff. tauto. }
  split.
  { intros c. unfold setCharset. destruct (hasNode signalsCharset (INode root)).
    - split; [done | by intros [[=] _]].
    - rewrite editHead_none_iff. tauto. }
  split.
  { intros c. unfold setViewport. destruct (hasNode isViewport (INode root)).
    - split; [done | by intros [[=] _]].
    - rewrite editHead_none_iff. tauto. }
  intros H. split; intros; by apply editHead_detached.
Qed.

Lemma head_edit_fails_iff_witness :
  (∀ href rel extra, insertLink (Elem "html" None None) href rel extra
                     = Some (Elem "html" None None))
  ∧ (∀ text, insertInlineScript (Elem "html" None None) text
             = Some (Elem "html" None None)).
Proof.
  apply (proj2 (proj2 (proj2 (proj2 (proj2
           (head_edit_fails_iff (Elem "html" None None))))))).
  reflexivity.
Defined.

(** ** Links and scripts *)

Lemma count_named_app key l1 l2 :
  count_named key (l1 ++ l2) = count_named key l1 + count_named key l2.
Proof.
  unfold count_named. by rewrite flat_map_app, List.filter_app, length_app.
Qed.

Lemma count_named_cons key n l :
  count_named key (n :: l) = count_named key [n] + count_named key l.
Proof. apply (count_named_app key [n] l). Qed.

Lemma count_named_elem key nm a cs :
  count_named key [Elem nm a (Some cs)]
  = (if String.eqb nm key then 1 else 0) + count_named key cs.
Proof.
  unfold count_named. simpl. rewrite app_nil_r. unfold named. simpl.
  by destruct (String.eqb nm key).
Qed.

Lemma count_named_headEdited key f root root' k :
  key ≠ "head" ->
  HeadEdited f root root' ->
  (∀ hcs, count_named key (f hcs) = count_named key hcs + k) ->
  count_named key [root'] = count_named key [root] + k.
Proof.
  intros Hkey H Hf.
  assert (String.eqb "head" key = false) as Hne.
  { apply String.eqb_neq. congruence. }
  assert (∀ ha hcs, count_named key [Elem "head" ha (Some (f hcs))]
                    = count_named key [Elem "head" ha (Some hcs)] + k) as Hhead.
  { intros ha hcs. rewrite !count_named_elem, Hf. lia. }
  assert (count_named key [Elem "head" (Some []) (Some [])] = 0) as Hnew.
  { by rewrite count_named_elem, Hne. }
  destruct H as [nm a cs i ha hcs _ Hi | nm a cs i _ _ | nm a cs _ _];
    rewrite !count_named_elem.
  - rewrite insert_take_drop by (by eapply lookup_lt_Some).
    assert (count_named key cs
            = count_named key (take i cs)
              + (count_named key [Elem "head" ha (Some hcs)]
                 + count_named key (drop (S i) cs))) as ->.
    { rewrite <- (take_drop_middle cs i _ Hi) at 1.
      by rewrite count_named_app, count_named_cons. }
    rewrite count_named_app, count_named_cons, Hhead. lia.
  - assert (count_named key cs
            = count_named key (take i cs) + count_named key (drop i cs)) as ->.
    { rewrite <- (take_drop i cs) at 1. by rewrite count_named_app. }
    rewrite count_named_app, count_named_cons, Hhead, Hnew. lia.
  - rewrite count_named_cons, Hhead, Hnew. lia.
Qed.

(** After an edit of the head, the first child named head has children:
    a further edit goes through. *)
Lemma headEdited_again (f g : list Node -> list Node) root r1 :
  HeadEdited f root r1 ->
  ∃ r2, editHeadChildren (ensureHeadNode r1) g = Some r2 ∧ HeadEdited g r1 r2.
Proof.
  intros H.
  assert (∃ nm a cs' i ha hcs',
            r1 = Elem nm a (Some cs') ∧ findIndex (named "head") cs' = Some i
            ∧ cs' !! i = Some (Elem "head" ha (Some hcs'))) as Hr1.
  { destruct H as [nm a cs i ha hcs Hfirst Hi | nm a cs i Hno Hb | nm a cs Hno Hb].
    - do 6 eexists. split; [reflexivity |]. split.
      + erewrite findIndex_insert; [by apply findIndex_named | exact Hi | done].
      + apply list_lookup_insert_eq. by eapply lookup_lt_Some.
    - assert (i ≤ length cs) as Hle.
      { destruct Hb as [(c & Hc & _) _]. apply lookup_lt_Some in Hc. lia. }
      do 6 eexists. split; [reflexivity |]. split.
      + apply findIndex_middle; [done | | done].
        by apply findIndex_None, findIndex_none_named.
      + by apply lookup_middle.
    - exists nm, a, (Elem "head" (Some []) (Some (f [])) :: cs), 0, (Some []), (f []).
      done. }
  destruct Hr1 as (nm & a & cs' & i & ha & hcs' & -> & Hidx & Hi).
  rewrite editHead_eq, Hidx, Hi. eexists. split; [done |].
  apply head_existing; [by apply findIndex_named | done].
Qed.

(** X7: [insertLink] and [insertInlineScript] check for nothing: on a root
    with children each call that succeeds adds exactly one node named link
    (script), and after one call a second call with the same arguments
    succeeds and adds one more. *)
Theorem insert_twice_adds_two (root : Node) :
  is_Some (node_children root) ->
  (∀ href rel extra r1,
     insertLink root href rel extra = Some r1 ->
     count_named "link" [r1] = count_named "link" [root] + 1
     ∧ ∃ r2, insertLink r1 href rel extra = Some r2
             ∧ count_named "link" [r2] = count_named "link" [root] + 2)
  ∧ (∀ text r1,
       insertInlineScript root text = Some r1 ->
       count_named "script" [r1] = count_named "script" [root] + 1
       ∧ ∃ r2, insertInlineScript r1 text = Some r2
               ∧ count_named "script" [r2] = count_named "script" [root] + 2).
Proof.
  intros [cs Hcs]. destruct root as [s | nm a [cs0 |]]; try done. clear Hcs.
  split.
  - intros href rel extra r1 H1. unfold insertLink in *.
    set (linkNode := Elem "link"
           (Some (attr_spread [("rel", rel); ("href", href)] extra)) (Some [])) in *.
    assert (∀ hcs, count_named "link" (hcs ++ [linkNode])
                   = count_named "link" hcs + 1) as Hlink.
    { intros hcs. rewrite count_named_app. by f_equal. }
    pose proof (editHead_spec _ _ _ _ _ H1) as E1.
    destruct (headEdited_again _ (fun cs => cs ++ [linkNode]) _ _ E1)
      as (r2 & H2 & E2).
    pose proof (count_named_headEdited "link" _ _ _ 1 ltac:(done) E1 Hlink) as C1.
    pose proof (count_named_headEdited "link" _ _ _ 1 ltac:(done) E2 Hlink) as C2.
    split; [exact C1 |]. exists r2. split; [exact H2 | lia].
  - intros text r1 H1. unfold insertInlineScript in *.
    set (scriptNode := Elem "script" (Some []) (Some [Text text])) in *.
    assert (∀ hcs, count_named "script" (hcs ++ [scriptNode])
                   = count_named "script" hcs + 1) as Hscript.
    { intros hcs. rewrite count_named_app. by f_equal. }
    pose proof (editHead_spec _ _ _ _ _ H1) as E1.
    destruct (headEdited_again _ (fun cs => cs ++ [scriptNode]) _ _ E1)
      as (r2 & H2 & E2).
    pose proof (count_named_headEdited "script" _ _ _ 1 ltac:(done) E1 Hscript) as C1.
    pose proof (count_named_headEdited "script" _ _ _ 1 ltac:(done) E2 Hscript) as C2.
    split; [exact C1 |]. exists r2. split; [exact H2 | lia].
Qed.

Lemma insert_twice_adds_two_witness :
  count_named "link"
    [Elem "html" (Some [])
       (Some [ Elem "head" (Some [])
                 (Some [Elem "link" (Some [("rel", "stylesheet"); ("href", "/a.css")])
                             (Some [])]);
               Elem "body" (Some []) (Some []) ])]
  = count_named "link"
      [Elem "html" (Some []) (Some [Elem "body" (Some []) (Some [])])] + 1
  ∧ ∃ r2,
      insertLink
        (Elem "html" (Some [])
           (Some [ Elem "head" (Some [])
                     (Some [Elem "link"
                              (Some [("rel", "stylesheet"); ("href", "/a.css")])
                              (Some [])]);
                   Elem "body" (Some []) (Some []) ]))
        "/a.css" "stylesheet" [] = Some r2
      ∧ count_named "link" [r2]
        = count_named "link"
            [Elem "html" (Some []) (Some [Elem "body" (Some []) (Some [])])] + 2.
Proof.
  apply (proj1 (insert_twice_adds_two
                  (Elem "html" (Some []) (Some [Elem "body" (Some []) (Some [])]))
                  ltac:(by eexists))
           "/a.css" "stylesheet" []).
  reflexivity.
Defined.

(** ** The attribs of a link *)

Lemma attr_get_replace_eq k v (a : Attribs) :
  is_Some (attr_get k a) -> attr_get k (attr_replace k v a) = Some v.
Proof.
  induction a as [| [k0 v0] a IH]; simpl; [by intros [? ?] |].
  destruct (String.eqb k0 k) eqn:E; simpl; rewrite E; [done | apply IH].
Qed.

Lemma attr_get_replace_ne k k' v (a : Attribs) :
  k ≠ k' -> attr_get k' (attr_replace k v a) = attr_get k' a.
Proof.
  intros Hne. induction a as [| [k0 v0] a IH]; simpl; [done |].
  destruct (String.eqb k0 k) eqn:E; simpl.
  - apply String.eqb_eq in E as ->. apply String.eqb_neq in Hne. by rewrite Hne.
  - by rewrite IH.
Qed.

Lemma attr_get_add_index_eq n k v (a : Attribs) :
  attr_get k a = None -> attr_get k (attr_add_index n k v a) = Some v.
Proof.
  induction a as [| [k0 v0] a IH]; simpl.
  - by rewrite String.eqb_refl.
  - destruct (String.eqb k0 k) eqn:E; [done |]. intros Ha.
    destruct (array_index k0) as [m |]; [destruct (m <? n)%N |]; simpl;
      rewrite ?E, ?String.eqb_refl; auto.
Qed.

Lemma attr_get_add_index_ne n k k' v (a : Attribs) :
  k ≠ k' -> attr_get k' (attr_add_index n k v a) = attr_get k' a.
Proof.
  intros Hne%String.eqb_neq. induction a as [| [k0 v0] a IH]; simpl.
  - by rewrite Hne.
  - destruct (array_index k0) as [m |]; [destruct (m <? n)%N |]; simpl;
      rewrite ?Hne, ?IH; done.
Qed.

Lemma attr_get_app k (a b : Attribs) :
  attr_get k (a ++ b)
  = match attr_get k a with
    | Some v => Some v
    | None => attr_get k b
    end.
Proof.
  induction a as [| [k0 v0] a IH]; simpl; [done |].
  by destruct (String.eqb k0 k).
Qed.

Lemma attr_get_set_eq k v (a : Attribs) : attr_get k (attr_set k v a) = Some v.
Proof.
  unfold attr_set. destruct (attr_get k a) as [v0 |] eqn:E.
  - apply attr_get_replace_eq. by rewrite E.
  - destruct (array_index k) as [n |].
    + by apply attr_get_add_index_eq.
    + rewrite attr_get_app, E. simpl. by rewrite String.eqb_refl.
Qed.

Lemma attr_get_set_ne k k' v (a : Attribs) :
  k ≠ k' -> attr_get k' (attr_set k v a) = attr_get k' a.
Proof.
  intros Hne. unfold attr_set. destruct (attr_get k a) as [v0 |] eqn:E.
  - by apply attr_get_replace_ne.
  - destruct (array_index k) as [n |].
    + by apply attr_get_add_index_ne.
    + rewrite attr_get_app. simpl. apply String.eqb_neq in Hne. rewrite Hne.
      by destruct (attr_get k' a).
Qed.

Lemma attr_get_None k (a : Attribs) : attr_get k a = None ↔ k ∉ a.*1.
Proof.
  induction a as [| [k0 v0] a IH]; simpl.
  - split; [intros _; apply not_elem_of_nil | done].
  - rewrite not_elem_of_cons. destruct (String.eqb k0 k) eqn:E.
    + apply String.eqb_eq in E as ->. split; [done | by intros [? _]].
    + apply String.eqb_neq in E. rewrite IH. split; [by split | by intros [_ ?]].
Qed.

Lemma attr_spread_get k (a b : Attribs) :
  NoDup b.*1 ->
  attr_get k (attr_spread a b)
  = match attr_get k b with
    | Some v => Some v
    | None => attr_get k a
    end.
Proof.
  unfold attr_spread. revert a. induction b as [| [k0 v0] b IH]; intros a Hnd.
  - done.
  - simpl in *. apply NoDup_cons in Hnd as [Hnotin Hnd]. rewrite IH by done.
    destruct (String.eqb k0 k) eqn:E.
    + apply String.eqb_eq in E as ->.
      apply attr_get_None in Hnotin as ->. apply attr_get_set_eq.
    + apply String.eqb_neq in E. rewrite attr_get_set_ne by done. done.
Qed.

Lemma attr_replace_keys k v (a : Attribs) : (attr_replace k v a).*1 = a.*1.
Proof.
  induction a as [| [k0 v0] a IH]; [done |]. cbn [attr_replace].
  destruct (String.eqb k0 k); rewrite !fmap_cons; [done | by rewrite IH].
Qed.

Lemma attr_add_index_keys n k v (a : Attribs) idx x tail :
  a.*1 = idx ++ x :: tail ->
  Forall (fun k => is_Some (array_index k)) idx -> array_index x = None ->
  ∃ idx', (attr_add_index n k v a).*1 = idx' ++ x :: tail
          ∧ (is_Some (array_index k) ->
             Forall (fun k => is_Some (array_index k)) idx').
Proof.
  revert a. induction idx as [| i idx IH]; intros a Ha Hidx Hx.
  - destruct a as [| [k0 v0] a]; [done |].
    rewrite fmap_cons in Ha. injection Ha as -> Ha.
    cbn [attr_add_index]. rewrite Hx. exists [k].
    rewrite !fmap_cons, Ha. split; [done |].
    intros Hk. by constructor.
  - destruct a as [| [k0 v0] a]; [done |].
    rewrite fmap_cons in Ha. injection Ha as -> Ha.
    apply Forall_cons in Hidx as [[m Hm] Hidx]. cbn [attr_add_index fst].
    rewrite Hm. destruct (m <? n)%N.
    + destruct (IH a Ha Hidx Hx) as (idx' & Hkeys & Hall).
      exists (i :: idx'). rewrite fmap_cons, Hkeys. split; [done |].
      intros Hk. constructor; [by exists m | by apply Hall].
    + exists (k :: i :: idx). rewrite !fmap_cons, Ha. split; [done |].
      intros Hk. constructor; [done |]. constructor; [by exists m | done].
Qed.

Lemma attr_set_key_order k v (a : Attribs) :
  key_order a.*1 -> key_order (attr_set k v a).*1.
Proof.
  intros (idx & rest & Ha & Hidx & Hrest). unfold attr_set.
  destruct (attr_get k a) as [v0 |].
  - rewrite attr_replace_keys. by exists idx, rest.
  - destruct (array_index k) as [n |] eqn:Hk.
    + destruct (attr_add_index_keys n k v a idx "rel" ("href" :: rest) Ha Hidx)
        as (idx' & Hkeys & Hall); [done |].
      exists idx', rest. split; [done |]. split; [| done].
      apply Hall. by rewrite Hk.
    + exists idx, (rest ++ [k]). rewrite fmap_app, Ha. simpl.
      split; [by rewrite <- app_assoc |]. split; [done |].
      apply Forall_app. split; [done |]. by constructor.
Qed.

Lemma attr_spread_key_order (a b : Attribs) :
  key_order a.*1 -> key_order (attr_spread a b).*1.
Proof.
  unfold attr_spread. revert a. induction b as [| [k0 v0] b IH]; intros a Ha; simpl.
  - done.
  - by apply IH, attr_set_key_order.
Qed.

(** X8: the node [insertLink] puts last in the head has the attribs rel,
    href and the additional attributes, an additional attribute of the key
    rel or href replacing the value.  Its keys iterate in this order: the
    keys that are array indices, then rel, then href, then the others. *)
Theorem insertLink_attribs (root : Node) (href rel : string) (extra : Attribs)
    (root' : Node) :
  is_Some (node_children root) -> NoDup extra.*1 ->
  insertLink root href rel extra = Some root' ->
  ∃ A,
    HeadEdited (fun hcs => hcs ++ [Elem "link" (Some A) (Some [])]) root root'
    ∧ (∀ k, attr_get k A
            = match attr_get k extra with
              | Some v => Some v
              | None => attr_get k [("rel", rel); ("href", href)]
              end)
    ∧ key_order A.*1.
Proof.
  intros [cs Hcs] Hnd H. destruct root as [s | nm a [cs0 |]]; try done.
  exists (attr_spread [("rel", rel); ("href", href)] extra). split; [| split].
  - by apply editHead_spec.
  - intros k. by apply attr_spread_get.
  - apply attr_spread_key_order. exists [], []. done.
Qed.

(** A link with an additional attribute of the key href, one of a new key
    and one whose key is an array index: the index comes first. *)
Lemma insertLink_attribs_witness :
  ∃ A,
    HeadEdited (fun hcs => hcs ++ [Elem "link" (Some A) (Some [])])
      (Elem "html" (Some []) (Some [Elem "head" (Some []) (Some [])]))
      (Elem "html" (Some [])
         (Some [Elem "head" (Some [])
                  (Some [Elem "link"
                           (Some [("7", "x"); ("rel", "icon"); ("href", "/x.ico");
                                  ("type", "image/x-icon")])
                           (Some [])])]))
    ∧ (∀ k, attr_get k A
            = match attr_get k [("href", "/x.ico"); ("type", "image/x-icon");
                                ("7", "x")] with
              | Some v => Some v
              | None => attr_get k [("rel", "icon"); ("href", "/favicon.ico")]
              end)
    ∧ key_order A.*1.
Proof.
  apply (insertLink_attribs
           (Elem "html" (Some []) (Some [Elem "head" (Some []) (Some [])]))
           "/favicon.ico" "icon"
           [("href", "/x.ico"); ("type", "image/x-icon"); ("7", "x")]).
  - by eexists.
  - apply (bool_decide_unpack _). reflexivity.
  - reflexivity.
Defined.

(** ** The title, once more *)

Lemma existsb_false_Forall {A} (q : A -> bool) (l : list A) :
  existsb q l = false ↔ Forall (λ x, q x = false) l.
Proof.
  induction l as [| x l IH]; simpl; [by split; [constructor |] |].
  rewrite orb_false_iff, IH. split.
  - intros [? ?]. by constructor.
  - intros H. by inversion H.
Qed.

Lemma updateTitle_node_twice t1 t2 n :
  updateTitle_node t2 (updateTitle_node t1 n) = updateTitle_node t2 n.
Proof.
  induction n as [s | nm a | nm a l IH] using Node_ind; simpl; [done | |].
  - destruct (String.eqb nm "title") eqn:E; simpl; by rewrite E.
  - destruct (String.eqb nm "title") eqn:E; simpl; rewrite E; [done |].
    do 2 f_equal. induction IH as [| c l Hc _ IHl]; simpl; [done |].
    by rewrite Hc, IHl.
Qed.

Lemma updateTitle_node_no_title t n :
  hasNode_node isTitle n = false -> updateTitle_node t n = n.
Proof.
  induction n as [s | nm a | nm a l IH] using Node_ind; simpl; [done | |].
  - unfold isTitle, name_is. simpl. rewrite orb_false_r. by intros ->.
  - unfold isTitle at 1, name_is. simpl.
    intros [-> Hl%existsb_false_Forall]%orb_false_iff. do 2 f_equal.
    induction IH as [| c l Hc _ IHl]; simpl; [done |].
    inversion Hl; subst. by rewrite Hc, IHl.
Qed.

Lemma hasNode_isTitle_updateTitle t n :
  hasNode_node isTitle (updateTitle_node t n) = hasNode_node isTitle n.
Proof.
  induction n as [s | nm a | nm a l IH] using Node_ind; simpl; [done | |].
  - by destruct (String.eqb nm "title") eqn:E; simpl; unfold isTitle, name_is;
      simpl; rewrite E.
  - destruct (String.eqb nm "title") eqn:E; simpl; unfold isTitle at 1 3, name_is;
      simpl; rewrite E; [done |]. simpl.
    induction IH as [| c l Hc _ IHl]; simpl; [done |]. by rewrite Hc, IHl.
Qed.

Lemma map_id_Forall {A} (g : A -> A) (l : list A) :
  Forall (λ x, g x = x) l -> map g l = l.
Proof. induction 1 as [| x l Hx _ IH]; simpl; [done |]. by rewrite Hx, IH. Qed.

Lemma map_insert {A B} (g : A -> B) (l : list A) i x :
  map g (<[i := x]> l) = <[i := g x]> (map g l).
Proof.
  revert i. induction l as [| y l IH]; intros [| i]; simpl; try done.
  by rewrite IH.
Qed.

(** X9: the last [setTitle] wins: after a call that succeeded, a second
    call gives what it would have given on the tree as it was. *)
Theorem setTitle_last_wins (root : Node) (t1 t2 : string) (r1 : Node) :
  setTitle root t1 = Some r1 -> setTitle r1 t2 = setTitle root t2.
Proof.
  unfold setTitle at 1 3. destruct (hasNode isTitle (INode root)) eqn:E.
  - intros [= <-]. unfold setTitle. simpl in *.
    by rewrite hasNode_isTitle_updateTitle, E, updateTitle_node_twice.
  - destruct root as [s | nm a [cs |]].
    + rewrite !editHead_detached by done. intros [= <-].
      unfold setTitle. rewrite E. by rewrite editHead_detached.
    + intros H1. pose proof (editHead_spec _ _ _ _ _ H1) as E1.
      assert (hasNode isTitle (INode r1) = true) as Ht.
      { simpl.
        apply (hasNode_node_headEdited isTitle _ _ _
                 (Elem "title" (Some []) (Some [Text t1])) E1); [| done].
        intros hcs. apply list_elem_of_here. }
      unfold setTitle. rewrite Ht. clear E1 Ht.
      simpl in E. unfold isTitle at 1, name_is in E. simpl in E.
      apply orb_false_iff in E as [Hnm Hcs%existsb_false_Forall].
      assert (Forall (λ c, updateTitle_node t2 c = c) cs) as Hid.
      { eapply Forall_impl; [exact Hcs |]. intros c.
        apply updateTitle_node_no_title. }
      rewrite editHead_eq in H1 |- *.
      destruct (findIndex (named "head") cs) as [i |] eqn:Eh.
      * pose proof Eh as [(c & Hc & Hname) _]%findIndex_named. rewrite Hc in H1 |- *.
        destruct c as [s | hn ha [hcs |]]; try done.
        injection Hname as ->. injection H1 as <-. do 2 f_equal.
        simpl. rewrite Hnm. do 2 f_equal.
        rewrite map_insert. rewrite (map_id_Forall _ cs Hid). f_equal.
        assert (updateTitle_node t2 (Elem "head" ha (Some hcs))
                = Elem "head" ha (Some hcs)) as Hhead.
        { rewrite Forall_forall in Hid. apply Hid.
          by eapply list_elem_of_lookup_2. }
        simpl in Hhead. injection Hhead as Hhcs. simpl. by rewrite Hhcs.
      * cbv zeta in *. injection H1 as <-. f_equal. simpl. rewrite Hnm.
        do 2 f_equal. rewrite map_app. simpl.
        rewrite (map_id_Forall _ (take _ cs)), (map_id_Forall _ (drop _ cs)); [done | |].
        -- by apply Forall_drop.
        -- by apply Forall_take.
    + rewrite !editHead_detached by done. intros [= <-].
      unfold setTitle. rewrite E. by rewrite editHead_detached.
Qed.

Lemma setTitle_last_wins_witness :
  setTitle (Elem "html" (Some [])
              (Some [ Elem "head" (Some [])
                        (Some [Elem "title" (Some []) (Some [Text "first"])]);
                      Elem "body" (Some []) (Some []) ]))
           "second"
  = setTitle (Elem "html" (Some []) (Some [Elem "body" (Some []) (Some [])])) "second".
Proof.
  apply (setTitle_last_wins
           (Elem "html" (Some []) (Some [Elem "body" (Some []) (Some [])])) "first").
  reflexivity.
Defined.

Lemma titleIs_updateTitle text n :
  hasNode_node isTitle n = true ->
  hasNode_node (titleIs text) (updateTitle_node text n) = true.
Proof.
  induction n as [s | nm a | nm a l IH] using Node_ind; simpl.
  - unfold isTitle, name_is. simpl. by rewrite andb_false_r.
  - unfold isTitle, name_is. simpl. rewrite orb_false_r. intros E. rewrite E.
    simpl. unfold titleIs, isTitle, name_is. simpl.
    by rewrite E, String.eqb_refl.
  - unfold isTitle at 1, name_is. simpl.
    destruct (String.eqb nm "title") eqn:E; simpl.
    + intros _. unfold titleIs, isTitle, name_is. simpl.
      by rewrite E, String.eqb_refl.
    + intros Hl. apply orb_true_iff. right.
      induction IH as [| c l Hc _ IHl]; simpl in *; [done |].
      apply orb_true_iff in Hl as [Hl | Hl].
      * by rewrite Hc.
      * rewrite IHl by done. apply orb_true_r.
Qed.

(** X10: after [setTitle] on a tree that had a title, or on a root with
    children, some node named title has the text as its content. *)
Theorem setTitle_then_found (root : Node) (text : string) (root' : Node) :
  has_title root ∨ is_Some (node_children root) ->
  setTitle root text = Some root' ->
  hasNode (titleIs text) (INode root') = true.
Proof.
  intros Hpre. unfold setTitle.
  destruct (hasNode isTitle (INode root)) eqn:E.
  - intros [= <-]. simpl. by apply titleIs_updateTitle.
  - destruct Hpre as [Ht%hasNode_isTitle | [cs Hcs]]; [congruence |].
    destruct root as [s | nm a [cs0 |]]; try done.
    intros H%editHead_spec. simpl.
    apply (hasNode_node_headEdited (titleIs text) _ _ _
             (Elem "title" (Some []) (Some [Text text])) H).
    + intros hcs. apply list_elem_of_here.
    + simpl. unfold titleIs, isTitle, name_is. simpl. by rewrite String.eqb_refl.
Qed.

Lemma setTitle_then_found_witness :
  hasNode (titleIs "New Title")
    (INode (Elem "html" (Some [])
              (Some [ Elem "head" (Some [])
                        (Some [Elem "title" (Some []) (Some [Text "New Title"])]);
                      Elem "body" (Some []) (Some []) ]))) = true.
Proof.
  apply (setTitle_then_found
           (Elem "html" (Some []) (Some [Elem "body" (Some []) (Some [])]))
           "New Title").
  - right. by eexists.
  - reflexivity.
Defined.

(** ** Pruning by name and attribs *)

Section PruneByLabel.
Variable predicate : NodeProps -> bool.
Hypothesis Hlabel : ignores_content predicate.

Lemma predicate_removeNodes_node n :
  predicate (getNodeProps (removeNodes_node predicate n)) = predicate (getNodeProps n).
Proof.
  apply Hlabel; by destruct n as [s | nm a [cs |]].
Qed.

Lemma preorder_node_descendants n : preorder_node n = n :: descendants n.
Proof. by destruct n as [s | nm a [cs |]]. Qed.

Lemma removeNodes_node_descendants n :
  Forall (λ m, predicate (getNodeProps m) = false)
         (descendants (removeNodes_node predicate n)).
Proof.
  induction n as [s | nm a | nm a l IH] using Node_ind; [constructor | constructor |].
  rewrite removeNodes_node_children. unfold descendants. simpl.
  induction IH as [| c l Hc _ IHl]; simpl; [constructor |].
  destruct (predicate (getNodeProps c)) eqn:E; simpl; [done |].
  apply Forall_app. split; [| done].
  rewrite preorder_node_descendants. constructor; [| done].
  by rewrite predicate_removeNodes_node.
Qed.

Lemma removeNodes_node_twice n :
  removeNodes_node predicate (removeNodes_node predicate n)
  = removeNodes_node predicate n.
Proof.
  induction n as [s | nm a | nm a l IH] using Node_ind; [done | done |].
  rewrite !removeNodes_node_children. do 2 f_equal.
  induction IH as [| c l Hc _ IHl]; simpl; [done |].
  destruct (predicate (getNodeProps c)) eqn:E; simpl; [done |].
  rewrite predicate_removeNodes_node, E. simpl. by rewrite Hc, IHl.
Qed.
End PruneByLabel.

(** X11: pruning by a predicate that looks at name and attribs only leaves
    no node below the root whose view satisfies the predicate, so that
    [hasNode] finds at most the root; and pruning again changes nothing. *)
Theorem removeNodes_leaves_no_match (predicate : NodeProps -> bool) (n : Node) :
  ignores_content predicate ->
  (∀ m, m ∈ descendants (removeNodes_node predicate n) ->
        predicate (getNodeProps m) = false)
  ∧ (hasNode predicate (INode (removeNodes_node predicate n)) = true ->
     predicate (getNodeProps n) = true)
  ∧ removeNodes predicate (removeNodes predicate (INode n))
    = removeNodes predicate (INode n).
Proof.
  intros Hlabel.
  pose proof (removeNodes_node_descendants predicate Hlabel n) as Hd.
  split; [by apply Forall_forall |]. split.
  - rewrite hasNode_preorder. unfold nonempty_nodes. simpl.
    intros (m & [Hm _]%filter_In & Hp)%existsb_exists.
    rewrite preorder_node_descendants in Hm. destruct Hm as [<- | Hm].
    + by rewrite predicate_removeNodes_node in Hp.
    + rewrite Forall_forall in Hd. apply list_elem_of_In in Hm.
      rewrite (Hd m Hm) in Hp. done.
  - simpl. f_equal. by apply removeNodes_node_twice.
Qed.

Lemma hasClass_ignores_content value : ignores_content (hasClass value).
Proof. intros d d' _ Ha. unfold hasClass. by rewrite Ha. Qed.

Lemma removeNodes_leaves_no_match_witness :
  removeNodes (hasClass "remove")
    (removeNodes (hasClass "remove")
       (INode (Elem "div" (Some [])
                 (Some [Elem "p" (Some [("class", "remove")]) (Some [Text "text"])]))))
  = removeNodes (hasClass "remove")
      (INode (Elem "div" (Some [])
                (Some [Elem "p" (Some [("class", "remove")]) (Some [Text "text"])]))).
Proof.
  apply (proj2 (proj2 (removeNodes_leaves_no_match (hasClass "remove")
                         (Elem "div" (Some [])
                            (Some [Elem "p" (Some [("class", "remove")])
                                        (Some [Text "text"])]))
                         (hasClass_ignores_content "remove")))).
Defined.

(** Without the restriction a node below the root can satisfy the predicate
    after pruning: a child with two children, one of them removed, gets a
    content. *)
Lemma removeNodes_can_leave_match :
  hasNode (fun d => match content d with Some _ => isTitle d | None => false end)
    (removeNodes (fun d => match content d with Some _ => isTitle d | None => false end)
       (INode (Elem "head" (Some [])
                 (Some [Elem "title" (Some [])
                          (Some [Text "a"; Elem "title" (Some []) (Some [Text "b"])])]))))
  = true.
Proof. reflexivity. Qed.

(** ** Resources and mutations *)

Lemma resources_of_label nm a cs :
  resources_of (Elem nm a cs) = label_resources (nm, a).
Proof. by destruct a. Qed.

Lemma resources_labels n :
  List.flat_map resources_of (preorder_node n) = List.flat_map label_resources (labels n).
Proof.
  induction n as [s | nm a | nm a l IH] using Node_ind.
  - done.
  - change (resources_of (Elem nm a None) ++ [] = label_resources (nm, a) ++ []).
    by rewrite resources_of_label.
  - simpl preorder_node. simpl labels.
    change (List.flat_map resources_of (Elem nm a (Some l) :: List.flat_map preorder_node l))
      with (resources_of (Elem nm a (Some l))
            ++ List.flat_map resources_of (List.flat_map preorder_node l)).
    change (List.flat_map label_resources ((nm, a) :: List.flat_map labels l))
      with (label_resources (nm, a)
            ++ List.flat_map label_resources (List.flat_map labels l)).
    rewrite resources_of_label. f_equal.
    induction IH as [| c l Hc _ IHl]; simpl; [done |].
    by rewrite !flat_map_app, Hc, IHl.
Qed.

Lemma extractAllResources_labels n :
  extractAllResources (INode n) = List.flat_map label_resources (labels n).
Proof.
  rewrite <- resources_labels. unfold extractAllResources.
  rewrite traverse_preorder.
  rewrite <- flat_map_resources_nonempty. fold (nonempty_nodes (INode n)).
  rewrite <- (app_nil_l (List.flat_map _ _)), <- fold_left_flat_map.
  apply fold_left_pointwise. intros acc m.
  destruct m as [s | nm [a |] cs].
  - simpl. by rewrite app_nil_r.
  - exact (push_resources nm a RESOURCE_ATTRS acc).
  - simpl. by rewrite app_nil_r.
Qed.

Lemma sublist_flat_map {A B} (g : A -> list B) (l1 l2 : list A) :
  l1 `sublist_of` l2 -> List.flat_map g l1 `sublist_of` List.flat_map g l2.
Proof.
  induction 1 as [| x l1 l2 _ IH | x l1 l2 _ IH]; simpl.
  - done.
  - by apply sublist_app.
  - by apply sublist_inserts_l.
Qed.

Lemma headEdited_label_in f root root' lab :
  HeadEdited f root root' ->
  (∀ hcs, lab ∈ List.flat_map labels (f hcs)) ->
  lab ∈ labels root'.
Proof.
  intros H Hf.
  destruct H as [nm a cs i ha hcs _ Hi | nm a cs i _ _ | nm a cs _ _];
    rewrite labels_elem; apply list_elem_of_further.
  - rewrite insert_take_drop by (by eapply lookup_lt_Some).
    rewrite flat_map_app. apply elem_of_app. right. simpl.
    apply list_elem_of_further, elem_of_app. left. apply Hf.
  - rewrite flat_map_app. apply elem_of_app. right. simpl.
    apply list_elem_of_further, elem_of_app. left. apply Hf.
  - simpl. apply list_elem_of_further, elem_of_app. left. apply Hf.
Qed.

(** X12: the mutations keep the resources of the nodes that stay, in
    order: what [extractAllResources] gave before an insertion it gives
    after it, and what it gives after [removeNodes] it gave before; and the
    link [insertLink] puts in a root with children shows among the
    resources when its href is not empty. *)
Theorem mutations_keep_resources (root : Node) :
  (∀ href rel extra root',
     insertLink root href rel extra = Some root' ->
     extractAllResources (INode root) `sublist_of` extractAllResources (INode root')
     ∧ (is_Some (node_children root) -> href ≠ EmptyString ->
        attr_get "href" extra = None ->
        mkResource "link" "href" href ∈ extractAllResources (INode root')))
  ∧ (∀ text root', insertInlineScript root text = Some root' ->
       extractAllResources (INode root) `sublist_of` extractAllResources (INode root'))
  ∧ (∀ charset root', setCharset root charset = Some root' ->
       extractAllResources (INode root) `sublist_of` extractAllResources (INode root'))
  ∧ (∀ content root', setViewport root content = Some root' ->
       extractAllResources (INode root) `sublist_of` extractAllResources (INode root'))
  ∧ (∀ predicate,
       extractAllResources (removeNodes predicate (INode root))
       `sublist_of` extractAllResources (INode root)).
Proof.
  assert (∀ f root',
            editHeadChildren (ensureHeadNode root) f = Some root' ->
            (∀ hcs, List.flat_map labels hcs `sublist_of` List.flat_map labels (f hcs)) ->
            extractAllResources (INode root)
            `sublist_of` extractAllResources (INode root')) as Hgrow.
  { intros f root' H Hf. rewrite !extractAllResources_labels.
    apply sublist_flat_map. by apply (editHead_grown f root root' H Hf). }
  split.
  { intros href rel extra root' H. split.
    - apply (Hgrow _ _ H). intros hcs. cbv beta. rewrite flat_map_app.
      by apply sublist_inserts_r.
    - intros [cs Hcs] Hhref Hextra. destruct root as [s | nm a [cs0 |]]; try done.
      apply editHead_spec in H. rewrite extractAllResources_labels.
      apply list_elem_of_In, in_flat_map.
      exists ("link", Some (attr_spread [("rel", rel); ("href", href)] extra)).
      split.
      + apply list_elem_of_In. eapply headEdited_label_in; [exact H |].
        intros hcs. cbv beta. rewrite flat_map_app. apply elem_of_app. right.
        apply list_elem_of_here.
      + unfold label_resources, resources_of. cbn [fst snd].
        apply list_elem_of_In, list_elem_of_omap. exists "href". split.
        * do 1 apply list_elem_of_further. apply list_elem_of_here.
        * assert (attr_get "href" (attr_spread [("rel", rel); ("href", href)] extra)
                  = Some href) as ->.
          { clear -Hextra. unfold attr_spread.
            assert (attr_get "href" [("rel", rel); ("href", href)] = Some href) as Hbase
              by done.
            revert Hbase. generalize [("rel", rel); ("href", href)].
            induction extra as [| [k0 v0] b IH]; intros base Hbase; [done |].
            simpl in *. destruct (String.eqb k0 "href") eqn:E; [done |].
            apply IH; [done |]. rewrite attr_get_set_ne; [done |].
            by apply String.eqb_neq. }
          by destruct (decide (href = EmptyString)). }
  split.
  { intros text root' H. apply (Hgrow _ _ H). intros hcs. cbv beta.
    rewrite flat_map_app. by apply sublist_inserts_r. }
  split.
  { intros c root'. unfold setCharset.
    destruct (hasNode signalsCharset (INode root)); [by intros [= <-] |].
    intros H. apply (Hgrow _ _ H). intros hcs. simpl. by apply sublist_cons. }
  split.
  { intros c root'. unfold setViewport.
    destruct (hasNode isViewport (INode root)); [by intros [= <-] |].
    intros H. apply (Hgrow _ _ H). intros hcs. cbv beta.
    rewrite flat_map_app. by apply sublist_inserts_r. }
  intros predicate.
  change (removeNodes predicate (INode root))
    with (INode (removeNodes_node predicate root)).
  rewrite !extractAllResources_labels.
  apply sublist_flat_map. apply removeNodes_node_shrunk.
Qed.

Lemma mutations_keep_resources_witness :
  mkResource "link" "href" "/a.css"
  ∈ extractAllResources
      (INode (Elem "html" (Some [])
                (Some [ Elem "head" (Some [])
                          (Some [Elem "link"
                                   (Some [("rel", "stylesheet"); ("href", "/a.css")])
                                   (Some [])]);
                        Elem "body" (Some []) (Some []) ]))).
Proof.
  apply (proj2 (proj1 (mutations_keep_resources
                         (Elem "html" (Some []) (Some [Elem "body" (Some []) (Some [])])))
                  "/a.css" "stylesheet" [] _ eq_refl)).
  - by eexists.
  - discriminate.
  - reflexivity.
Defined.

(** ** The document skeleton and the setters *)

(** X13: on a document skeleton, whatever its title and options are,
    [setTitle] gives the skeleton with the new title, [setViewport] changes
    nothing, and [setCharset] changes nothing unless the charset option is
    the empty string, in which case it puts a second charset node first in
    the head; the head of the skeleton is its first child. *)
Theorem setters_on_skeleton (title : string) (options : Options) :
  (∀ text, setTitle (createHtmlDocument title options) text
           = Some (createHtmlDocument text options))
  ∧ (∀ content, setViewport (createHtmlDocument title options) content
                = Some (createHtmlDocument title options))
  ∧ (∀ cs, charset options ≠ Some EmptyString ->
           setCharset (createHtmlDocument title options) cs
           = Some (createHtmlDocument title options))
  ∧ (∀ cs, charset options = Some EmptyString ->
           ∃ root', setCharset (createHtmlDocument title options) cs = Some root'
                    ∧ countMetaTags (INode root') = 3)
  ∧ snd (ensureHeadNode (createHtmlDocument title options)) = InTree 0.
Proof.
  destruct options as [l c v]. split; [done |]. split; [done |].
  split; [| split; [| done]].
  - intros cs Hc. simpl in Hc. destruct c as [[| ch c] |]; done.
  - intros cs Hc. simpl in Hc. subst c.
    destruct title; (eexists; split; [reflexivity |]); reflexivity.
Qed.

Lemma setters_on_skeleton_witness :
  setCharset (createHtmlDocument "t" (mkOptions (Some "en") (Some "gb2312") None))
             "utf-8"
  = Some (createHtmlDocument "t" (mkOptions (Some "en") (Some "gb2312") None)).
Proof.
  apply (proj1 (proj2 (proj2
           (setters_on_skeleton "t" (mkOptions (Some "en") (Some "gb2312") None))))).
  discriminate.
Defined.

(** ** Absent attribs and children *)

Lemma map_ext_Forall {A B} (g h : A -> B) (l : list A) :
  Forall (λ x, g x = h x) l -> map g l = map h l.
Proof. induction 1 as [| x l Hx _ IH]; simpl; [done |]. by rewrite Hx, IH. Qed.

(** X14: [jsonToHtml] writes an absent [attribs] or [children], at any
    depth, as it writes an empty one. *)
Theorem jsonToHtml_withDefaults (n : Node) :
  jsonToHtml (withDefaults n) = jsonToHtml n.
Proof.
  induction n as [s | nm a | nm a l IH] using Node_ind; [done | |].
  - change (withDefaults (Elem nm a None))
      with (Elem nm (Some (default [] a)) (Some [])).
    by rewrite !jsonToHtml_Elem.
  - change (withDefaults (Elem nm a (Some l)))
      with (Elem nm (Some (default [] a)) (Some (map withDefaults l))).
    rewrite !jsonToHtml_Elem. cbv zeta.
    change (default [] (Some (default [] a))) with (default [] a).
    change (default [] (Some (map withDefaults l))) with (map withDefaults l).
    change (default [] (Some l)) with l.
    rewrite length_map, map_map. by rewrite (map_ext_Forall _ jsonToHtml l IH).
Qed.

(** ** What the records are *)

(** X15: every record [extractAllResources] returns names one of the four
    resource attributes, has a non-empty value, and tells the name of an
    element of the tree that has this value for this attribute. *)
Theorem extractAllResources_records (root : Node) (r : Resource) :
  r ∈ extractAllResources (INode root) ->
  res_attribute r ∈ RESOURCE_ATTRS
  ∧ res_value r ≠ EmptyString
  ∧ ∃ a, (res_name r, Some a) ∈ labels root
         ∧ attr_get (res_attribute r) a = Some (res_value r).
Proof.
  rewrite extractAllResources_labels.
  intros ([nm a] & Hlab & Hr)%list_elem_of_In%in_flat_map.
  unfold label_resources, resources_of in Hr. cbn [fst snd] in Hr.
  destruct a as [a |]; [| done].
  apply list_elem_of_In, list_elem_of_omap in Hr as (key & Hkey & Hsome).
  destruct (attr_get key a) as [v |] eqn:Ev; [| done].
  destruct (decide (v = EmptyString)); [done |]. injection Hsome as <-. simpl.
  split; [done |]. split; [done |]. exists a. split; [| done].
  by apply list_elem_of_In.
Qed.

Lemma extractAllResources_records_witness :
  res_attribute (mkResource "img" "src" "/b.jpg") ∈ RESOURCE_ATTRS
  ∧ res_value (mkResource "img" "src" "/b.jpg") ≠ EmptyString
  ∧ ∃ a, (res_name (mkResource "img" "src" "/b.jpg"), Some a)
         ∈ labels (Elem "body" (Some [])
                     (Some [Elem "img" (Some [("src", "/b.jpg"); ("alt", "")]) (Some [])]))
         ∧ attr_get (res_attribute (mkResource "img" "src" "/b.jpg")) a
           = Some (res_value (mkResource "img" "src" "/b.jpg")).
Proof.
  apply extractAllResources_records.
  apply list_elem_of_In. vm_compute. tauto.
Defined.

(** ** Charset and viewport, once more *)

(** X16: after [setViewport] on a root with children some meta node has
    the name viewport, and after [setCharset] with a non-empty charset some
    node signals a charset. *)
Theorem setters_then_found (root : Node) (root' : Node) :
  is_Some (node_children root) ->
  (∀ content, setViewport root content = Some root' ->
              hasNode isViewport (INode root') = true)
  ∧ (∀ charset, charset ≠ EmptyString -> setCharset root charset = Some root' ->
                hasNode signalsCharset (INode root') = true).
Proof.
  intros [cs Hcs]. destruct root as [s | nm a [cs0 |]]; try done. split.
  - intros content. unfold setViewport.
    destruct (hasNode isViewport (INode (Elem nm a (Some cs0)))) eqn:E.
    + by intros [= <-].
    + intros H%editHead_spec. simpl.
      apply (hasNode_node_headEdited isViewport _ _ _
               (Elem "meta" (Some [("name", "viewport"); ("content", content)])
                     (Some [])) H); [| done].
      intros hcs. apply elem_of_app. right. apply list_elem_of_here.
  - intros charset Hc. unfold setCharset.
    destruct (hasNode signalsCharset (INode (Elem nm a (Some cs0)))) eqn:E.
    + by intros [= <-].
    + intros H%editHead_spec. simpl.
      apply (hasNode_node_headEdited signalsCharset _ _ _
               (Elem "meta" (Some [("charset", charset)]) (Some [])) H).
      * intros hcs. apply list_elem_of_here.
      * simpl. by destruct charset.
Qed.

Lemma setters_then_found_witness :
  hasNode isViewport
    (INode (Elem "html" (Some [])
              (Some [Elem "head" (Some [])
                       (Some [Elem "meta"
                                (Some [("name", "viewport"); ("content", "width=320")])
                                (Some [])])]))) = true.
Proof.
  apply (proj1 (setters_then_found (Elem "html" (Some []) (Some [])) _
                  ltac:(by eexists)) "width=320").
  reflexivity.
Defined.

(** Two edits of the head in a row are one edit by the composed function. *)
Lemma editHead_compose (f g : list Node -> list Node) nm a cs r1 :
  editHeadChildren (ensureHeadNode (Elem nm a (Some cs))) f = Some r1 ->
  editHeadChildren (ensureHeadNode r1) g
  = editHeadChildren (ensureHeadNode (Elem nm a (Some cs))) (fun hcs => g (f hcs)).
Proof.
  rewrite !editHead_eq.
  destruct (findIndex (named "head") cs) as [i |] eqn:Eh.
  - destruct (cs !! i) as [[s | hn ha [hcs |]] |] eqn:Hi; try done.
    intros [= <-]. rewrite editHead_eq.
    rewrite (findIndex_insert _ cs i (Elem hn ha (Some hcs))), Eh by done.
    rewrite list_lookup_insert_eq by (by eapply lookup_lt_Some).
    by rewrite list_insert_insert_eq.
  - cbv zeta. intros [= <-]. rewrite editHead_eq.
    rewrite findIndex_middle;
      [| apply body_index_le | by apply findIndex_None | done].
    rewrite lookup_middle by apply body_index_le.
    by rewrite insert_middle by apply body_index_le.
Qed.

Lemma hasNode_node_elem p nm a cs :
  hasNode_node p (Elem nm a (Some cs))
  = p (getNodeProps (Elem nm a (Some cs))) || existsb (hasNode_node p) cs.
Proof. done. Qed.

(** What [hasNode] answers after an edit that adds nodes to the head, for
    a predicate that looks at name and attribs only and is false of a head
    without attributes. *)
Lemma hasNode_node_headEdited_eq (p : NodeProps -> bool) f root root' (hx : bool) :
  ignores_content p ->
  p (mkProps (Some "head") (Some []) None) = false ->
  (∀ hcs, existsb (hasNode_node p) (f hcs) = existsb (hasNode_node p) hcs || hx) ->
  HeadEdited f root root' ->
  hasNode_node p root' = hasNode_node p root || hx.
Proof.
  intros Hlabel Hhead Hf H.
  assert (∀ nm a cs1 cs2,
            p (getNodeProps (Elem nm a cs1)) = p (getNodeProps (Elem nm a cs2))) as Hview.
  { intros. by apply Hlabel. }
  destruct H as [nm a cs i ha hcs _ Hi | nm a cs i _ _ | nm a cs _ _];
    rewrite !hasNode_node_elem, (Hview nm a _ (Some cs)).
  - rewrite insert_take_drop by (by eapply lookup_lt_Some).
    assert (existsb (hasNode_node p) cs
            = existsb (hasNode_node p) (take i cs)
              || (hasNode_node p (Elem "head" ha (Some hcs))
                  || existsb (hasNode_node p) (drop (S i) cs))) as ->.
    { rewrite <- (take_drop_middle cs i _ Hi) at 1. by rewrite existsb_app. }
    rewrite existsb_app. cbn [existsb].
    rewrite !hasNode_node_elem, Hf, (Hview "head" ha (Some (f hcs)) (Some hcs)).
    repeat match goal with |- context [p ?x] => destruct (p x) end;
      repeat match goal with
             | |- context [existsb ?g ?l] => destruct (existsb g l)
             end;
      by destruct hx.
  - assert (existsb (hasNode_node p) cs
            = existsb (hasNode_node p) (take i cs)
              || existsb (hasNode_node p) (drop i cs)) as ->.
    { rewrite <- (take_drop i cs) at 1. by rewrite existsb_app. }
    rewrite existsb_app. cbn [existsb].
    rewrite hasNode_node_elem, (Hf []), (Hview "head" (Some []) _ None).
    cbn [existsb getNodeProps]. rewrite Hhead.
    repeat match goal with |- context [p ?x] => destruct (p x) end;
      repeat match goal with
             | |- context [existsb ?g ?l] => destruct (existsb g l)
             end;
      by destruct hx.
  - cbn [existsb].
    rewrite hasNode_node_elem, (Hf []), (Hview "head" (Some []) _ None).
    cbn [existsb getNodeProps]. rewrite Hhead.
    repeat match goal with |- context [p ?x] => destruct (p x) end;
      repeat match goal with
             | |- context [existsb ?g ?l] => destruct (existsb g l)
             end;
      by destruct hx.
Qed.

Lemma signalsCharset_ignores_content : ignores_content signalsCharset.
Proof.
  intros d d' Hn Ha. unfold signalsCharset, name_is. by rewrite Hn, Ha.
Qed.

Lemma isViewport_ignores_content : ignores_content isViewport.
Proof.
  intros d d' Hn Ha. unfold isViewport, name_is. by rewrite Hn, Ha.
Qed.

Lemma setCharset_eq root charset :
  setCharset root charset
  = if hasNode_node signalsCharset root then Some root
    else editHeadChildren (ensureHeadNode root)
           (fun cs => Elem "meta" (Some [("charset", charset)]) (Some []) :: cs).
Proof. done. Qed.

Lemma setViewport_eq root content :
  setViewport root content
  = if hasNode_node isViewport root then Some root
    else editHeadChildren (ensureHeadNode root)
           (fun cs => cs ++ [Elem "meta"
                               (Some [("name", "viewport"); ("content", content)])
                               (Some [])]).
Proof. done. Qed.

Lemma setters_detached root charset content :
  node_children root = None ->
  setCharset root charset = Some root ∧ setViewport root content = Some root.
Proof.
  intros H. rewrite setCharset_eq, setViewport_eq, !editHead_detached by done.
  by destruct (hasNode_node signalsCharset root), (hasNode_node isViewport root).
Qed.

(** X17: [setCharset] and [setViewport] can be called in either order: the
    two orders fail together and otherwise give the same tree. *)
Theorem setCharset_setViewport_commute (root : Node) (charset content : string) :
  setCharset root charset ≫= (fun r => setViewport r content)
  = setViewport root content ≫= (fun r => setCharset r charset).
Proof.
  set (mc := Elem "meta" (Some [("charset", charset)]) (Some [])).
  set (vp := Elem "meta" (Some [("name", "viewport"); ("content", content)]) (Some [])).
  assert (Hvp : ∀ r r', HeadEdited (fun hcs => hcs ++ [vp]) r r' ->
                        hasNode_node signalsCharset r' = hasNode_node signalsCharset r).
  { intros r r' H.
    rewrite (hasNode_node_headEdited_eq signalsCharset (fun hcs => hcs ++ [vp])
               r r' false signalsCharset_ignores_content eq_refl);
      [apply orb_false_r | | done].
    intros hcs. rewrite existsb_app. by f_equal. }
  assert (Hmc : ∀ r r', HeadEdited (fun hcs => mc :: hcs) r r' ->
                        hasNode_node isViewport r' = hasNode_node isViewport r).
  { intros r r' H.
    rewrite (hasNode_node_headEdited_eq isViewport (fun hcs => mc :: hcs)
               r r' false isViewport_ignores_content eq_refl);
      [apply orb_false_r | | done].
    intros hcs. cbn [existsb]. rewrite orb_comm. by f_equal. }
  destruct (node_children root) as [cs0 |] eqn:Hchildren; cycle 1.
  { destruct (setters_detached root charset content Hchildren) as [-> ->]. simpl.
    by destruct (setters_detached root charset content Hchildren) as [-> ->]. }
  destruct root as [s | nm a [cs |]]; try done. clear Hchildren cs0.
  rewrite (setCharset_eq (Elem nm a (Some cs))), (setViewport_eq (Elem nm a (Some cs))).
  fold mc vp.
  destruct (hasNode_node signalsCharset (Elem nm a (Some cs))) eqn:Ec,
    (hasNode_node isViewport (Elem nm a (Some cs))) eqn:Ev.
  - cbn [mbind option_bind]. by rewrite setCharset_eq, setViewport_eq, Ec, Ev.
  - cbn [mbind option_bind]. rewrite setViewport_eq, Ev. fold vp.
    destruct (editHeadChildren _ (fun cs0 => cs0 ++ [vp])) as [r |] eqn:E; [| done].
    cbn [mbind option_bind]. rewrite setCharset_eq.
    by rewrite (Hvp _ _ (editHead_spec _ _ _ _ _ E)), Ec.
  - cbn [mbind option_bind]. rewrite setCharset_eq, Ec. fold mc.
    destruct (editHeadChildren _ (fun cs0 => mc :: cs0)) as [r |] eqn:E; [| done].
    cbn [mbind option_bind]. rewrite setViewport_eq.
    by rewrite (Hmc _ _ (editHead_spec _ _ _ _ _ E)), Ev.
  - destruct (editHeadChildren (ensureHeadNode (Elem nm a (Some cs)))
                (fun cs0 => mc :: cs0)) as [r1 |] eqn:E1;
      destruct (editHeadChildren (ensureHeadNode (Elem nm a (Some cs)))
                  (fun cs0 => cs0 ++ [vp])) as [r2 |] eqn:E2.
    + cbn [mbind option_bind]. rewrite setViewport_eq, setCharset_eq. fold mc vp.
      rewrite (Hmc _ _ (editHead_spec _ _ _ _ _ E1)), Ev.
      rewrite (Hvp _ _ (editHead_spec _ _ _ _ _ E2)), Ec.
      rewrite (editHead_compose _ _ _ _ _ _ E1), (editHead_compose _ _ _ _ _ _ E2).
      done.
    + apply editHead_none_iff in E2.
      apply (editHead_none_iff (fun cs0 => mc :: cs0)) in E2. congruence.
    + apply editHead_none_iff in E1.
      apply (editHead_none_iff (fun cs0 => cs0 ++ [vp])) in E1. congruence.
    + done.
Qed.

(** ** Trees whose elements are complete *)

Lemma isComplete_elem nm a cs :
  isComplete (Elem nm (Some a) (Some cs)) = true
  ↔ Forall (λ c, isComplete c = true) cs.
Proof.
  simpl. induction cs as [| c cs IH]; simpl; [by split; [constructor |] |].
  rewrite andb_true_iff, IH. split.
  - intros [? ?]. by constructor.
  - intros H. by inversion H.
Qed.

Lemma editHead_complete (f : list Node -> list Node) (root : Node) :
  isComplete root = true ->
  (∀ hcs, Forall (λ c, isComplete c = true) hcs ->
          Forall (λ c, isComplete c = true) (f hcs)) ->
  ∃ r, editHeadChildren (ensureHeadNode root) f = Some r ∧ isComplete r = true.
Proof.
  intros Hroot Hf. destruct root as [s | nm [a |] [cs |]]; try done.
  - exists (Text s). by rewrite editHead_detached.
  - apply isComplete_elem in Hroot. rewrite editHead_eq.
    destruct (findIndex (named "head") cs) as [i |] eqn:Eh.
    + apply findIndex_named in Eh as [(c & Hc & Hname) _]. rewrite Hc.
      assert (isComplete c = true) as Hcomplete.
      { rewrite Forall_forall in Hroot. apply Hroot.
        by eapply list_elem_of_lookup_2. }
      destruct c as [s | hn [ha |] [hcs |]]; try done.
      eexists. split; [done |]. apply isComplete_elem.
      apply Forall_insert; [done |]. apply isComplete_elem, Hf.
      by apply isComplete_elem in Hcomplete.
    + cbv zeta. eexists. split; [done |]. apply isComplete_elem.
      apply Forall_app. split; [by apply Forall_take |].
      constructor; [| by apply Forall_drop].
      apply (isComplete_elem "head" [] (f [])), Hf. constructor.
Qed.

Lemma removeNodes_node_complete predicate n :
  isComplete n = true -> isComplete (removeNodes_node predicate n) = true.
Proof.
  induction n as [s | nm a | nm a l IH] using Node_ind; [done | done |].
  destruct a as [a |]; [| done]. rewrite removeNodes_node_children.
  rewrite !isComplete_elem. intros Hl.
  induction IH as [| c l Hc _ IHl]; simpl; [constructor |].
  inversion Hl; subst.
  destruct (predicate (getNodeProps c)); simpl; [by apply IHl |].
  constructor; [by apply Hc | by apply IHl].
Qed.

Lemma updateTitle_node_complete text n :
  isComplete n = true -> isComplete (updateTitle_node text n) = true.
Proof.
  induction n as [s | nm a | nm a l IH] using Node_ind;
    [done | by destruct a |].
  destruct a as [a |]; [| done].
  change (updateTitle_node text (Elem nm (Some a) (Some l)))
    with (if String.eqb nm "title" then Elem nm (Some a) (Some [Text text])
          else Elem nm (Some a) (Some (map (updateTitle_node text) l))).
  destruct (String.eqb nm "title"); [done |].
  rewrite !isComplete_elem. intros Hl.
  induction IH as [| c l Hc _ IHl]; simpl; [constructor |].
  inversion Hl; subst. constructor; [by apply Hc | by apply IHl].
Qed.

(** X18: on a tree all of whose elements have attribs and children no
    mutation fails, and the tree it gives is again such a tree. *)
Theorem mutations_on_complete (root : Node) :
  isComplete root = true ->
  (∀ text, ∃ r, setTitle root text = Some r ∧ isComplete r = true)
  ∧ (∀ charset, ∃ r, setCharset root charset = Some r ∧ isComplete r = true)
  ∧ (∀ content, ∃ r, setViewport root content = Some r ∧ isComplete r = true)
  ∧ (∀ href rel extra,
       ∃ r, insertLink root href rel extra = Some r ∧ isComplete r = true)
  ∧ (∀ text, ∃ r, insertInlineScript root text = Some r ∧ isComplete r = true)
  ∧ (∀ predicate, isComplete (removeNodes_node predicate root) = true).
Proof.
  intros Hroot.
  assert (∀ x, isComplete x = true ->
               ∀ hcs, Forall (λ c, isComplete c = true) hcs ->
                      Forall (λ c, isComplete c = true) (x :: hcs)) as Hcons.
  { intros x Hx hcs Hhcs. by constructor. }
  assert (∀ x, isComplete x = true ->
               ∀ hcs, Forall (λ c, isComplete c = true) hcs ->
                      Forall (λ c, isComplete c = true) (hcs ++ [x])) as Hsnoc.
  { intros x Hx hcs Hhcs. apply Forall_app. split; [done | by constructor]. }
  split.
  { intros text. unfold setTitle. destruct (hasNode isTitle (INode root)).
    - eexists. split; [done |]. by apply updateTitle_node_complete.
    - apply editHead_complete; [done |]. by apply Hcons. }
  split.
  { intros c. unfold setCharset. destruct (hasNode signalsCharset (INode root)).
    - by exists root.
    - apply editHead_complete; [done |]. by apply Hcons. }
  split.
  { intros c. unfold setViewport. destruct (hasNode isViewport (INode root)).
    - by exists root.
    - apply editHead_complete; [done |]. by apply Hsnoc. }
  split.
  { intros href rel extra. apply editHead_complete; [done |]. by apply Hsnoc. }
  split.
  { intros text. apply editHead_complete; [done |]. by apply Hsnoc. }
  intros predicate. by apply removeNodes_node_complete.
Qed.

Lemma mutations_on_complete_witness :
  ∃ r, insertInlineScript
         (Elem "html" (Some []) (Some [Elem "head" (Some []) (Some [])]))
         "console.log(1)" = Some r
       ∧ isComplete r = true.
Proof.
  apply (proj1 (proj2 (proj2 (proj2 (proj2
           (mutations_on_complete
              (Elem "html" (Some []) (Some [Elem "head" (Some []) (Some [])]))
              eq_refl)))))).
Defined.
